(** * coinset: coin selection (src/coinset/coins.go)

    A shallow embedding of the selection engine of package [coinset]:
    the target predicate, the [subset] accumulator, the greedy selection
    [SelectMinIndex], its sorting wrappers and [MinPrioritySelect].

    Go's [int], [int64] and [btcutil.Amount] are integers of type [Z]
    with the two's-complement wrap-around written out.  [btcutil.Amount]
    is declared outside coins.go; it is the 64-bit integer type that the
    conversions between it and [int64] in [SimpleCoin] treat it as.  The
    divisions of the code have divisors that are at least [1].  A coin
    collection is the ordered, indexable, swappable sequence behind the
    [Coins] interface; the methods the code calls on it ([Len], [Coin],
    [AmountCoin], [ValueAgeCoin], [Swap]) are the primitive actions of a
    state monad over that sequence.  Run-time panics (an index out of
    range, a capacity that [make] refuses) are outcomes of their
    own, distinct from the error values a function returns. *)

From stdpp Require Import base list sorting.
From Stdlib Require Import ZArith Lia.

Local Open Scope Z_scope.

(** ** 64-bit integers *)

Module Int64.

Definition modulus : Z := 2 ^ 64.
Definition min_int : Z := - 2 ^ 63.
Definition max_int : Z := 2 ^ 63 - 1.

Definition in_range (z : Z) : Prop := min_int <= z <= max_int.

(** The value a 64-bit signed integer holds after an operation whose
    exact result is [z]. *)
Definition wrap (z : Z) : Z := (z + 2 ^ 63) mod modulus - 2 ^ 63.

Definition add (x y : Z) : Z := wrap (x + y).
Definition sub (x y : Z) : Z := wrap (x - y).
Definition mul (x y : Z) : Z := wrap (x * y).
(** Go's [/] truncates toward zero. *)
Definition quot (x y : Z) : Z := wrap (Z.quot x y).

End Int64.

(** ** Coins *)

(** [ErrCoinsNoSelectionAvailable], the only error value of the package. *)
Inductive error : Set := ErrCoinsNoSelectionAvailable.

(** What a Go function with result [(A, error)] returns: [(a, nil)] or
    [(nil, e)]. *)
Inductive go_result (A : Type) : Type :=
| Ok (a : A)
| Err (e : error).
Arguments Ok {A} a.
Arguments Err {A} e.

(** Run-time panics the code can raise. *)
Inductive panic : Set :=
| IndexOutOfRange      (* an index expression or a collection access *)
| MakesliceCapOutOfRange. (* [make([]T, 0, n)] with [n] out of range *)

Inductive outcome (A : Type) : Type :=
| Done (a : A)
| Panic (p : panic).
Arguments Done {A} a.
Arguments Panic {A} p.

(** A value behind the [Coin] interface: what its two methods return,
    two 64-bit integers.  [AmountCoin] and [ValueAgeCoin] are narrower
    views of the same value.  The methods are pure: a coin answers the
    same throughout a call, as the package requires of its callers. *)
Record Coin : Set := mkCoin { Amount : Z; ValueAge : Z }.

(** [Args]. *)
Record Args : Set := mkArgs { MaxInputs : Z; MinChangeAmount : Z }.

(** ** The target predicate *)

(** [total == target || total >= target+minChange] *)
Definition satisfiesTargetAmount (target minChange total : Z) : bool :=
  (total =? target) || (Int64.add target minChange <=? total).

(** ** Effects: a state monad with panics *)

(** A computation over a mutable object of type [S]: it ends normally with
    a value or panics, and in both cases leaves the object in some state. *)
Definition M (S A : Type) : Type := S → outcome A * S.

#[global] Instance M_ret {S} : MRet (M S) := λ A a s, (Done a, s).
#[global] Instance M_bind {S} : MBind (M S) := λ A B f m s,
  match m s with
  | (Done a, s') => f a s'
  | (Panic p, s') => (Panic p, s')
  end.

Definition raise {S A} (p : panic) : M S A := λ s, (Panic p, s).

(** [l[i]] for a Go [int] index [i]. *)
Definition at_index {A} (l : list A) (i : Z) : option A :=
  if i <? 0 then None else l !! Z.to_nat i.

(** ** Coin collections *)

(** The collection behind the [Coins], [AmountCoins] and [ValueAgeCoins]
    interfaces: its coins in positional order, and the [Swap] calls made
    on it so far, oldest first. *)
Record Coins : Set := mkCoins { elems : list Coin; swapped : list (Z * Z) }.

Definition swap_elems (i j : Z) (l : list Coin) : option (list Coin) :=
  match at_index l i, at_index l j with
  | Some x, Some y => Some (<[Z.to_nat j := x]> (<[Z.to_nat i := y]> l))
  | _, _ => None
  end.

Module Coins.

Definition Len : M Coins Z := λ c, (Done (Z.of_nat (length (elems c))), c).

(** Indexed access, as a slice-backed collection does it: an index
    outside [0, Len()) panics.  The three accessors return the same
    coin under its three interfaces. *)
Definition get (i : Z) : M Coins Coin := λ c,
  match at_index (elems c) i with
  | Some x => (Done x, c)
  | None => (Panic IndexOutOfRange, c)
  end.

Definition AmountCoin (i : Z) : M Coins Coin := get i.
Definition ValueAgeCoin (i : Z) : M Coins Coin := get i.
Definition Coin (i : Z) : M Coins Coin := get i.

Definition Swap (i j : Z) : M Coins unit := λ c,
  match swap_elems i j (elems c) with
  | Some l => (Done tt, mkCoins l (swapped c ++ [(i, j)]))
  | None => (Panic IndexOutOfRange, c)
  end.

End Coins.

(** ** The subset accumulator *)

(** [set] is the collection the subset refers to; the subset only reads
    it.  The collection is taken as it is when the subset is built: the
    code requires its coins to stay the same while the subset is in use
    (comment above the type). *)
Record subset : Set := mkSubset {
  set : list Coin;
  idxs : list Z;
  totalValue : Z;
  totalValueAge : Z
}.

Definition newSubset_step (coins : list Coin) (acc : outcome subset) (i : Z)
  : outcome subset :=
  match acc with
  | Done s =>
      match at_index coins i with
      | Some coin =>
          Done (mkSubset (set s) (idxs s)
                  (Int64.add (totalValue s) (Amount coin))
                  (Int64.add (totalValueAge s) (ValueAge coin)))
      | None => Panic IndexOutOfRange
      end
  | Panic p => Panic p
  end.

Definition newSubset (coins : list Coin) (idxs : list Z) : outcome subset :=
  foldl (newSubset_step coins) (Done (mkSubset coins idxs 0 0)) idxs.

Definition pushBack (i : Z) : M subset unit := λ s,
  let s1 := mkSubset (set s) (idxs s ++ [i]) (totalValue s) (totalValueAge s) in
  match at_index (set s1) i with
  | Some c =>
      (Done tt, mkSubset (set s1) (idxs s1)
                  (Int64.add (totalValue s1) (Amount c))
                  (Int64.add (totalValueAge s1) (ValueAge c)))
  | None => (Panic IndexOutOfRange, s1)
  end.

Definition subTotals (c : Coin) : M subset unit := λ s,
  (Done tt, mkSubset (set s) (idxs s)
              (Int64.sub (totalValue s) (Amount c))
              (Int64.sub (totalValueAge s) (ValueAge c))).

Definition popBack : M subset Coin := λ s,
  match last (idxs s) with
  | None => (Panic IndexOutOfRange, s)       (* s.idxs[-1] *)
  | Some i =>
      match at_index (set s) i with
      | None => (Panic IndexOutOfRange, s)
      | Some back =>
          let s1 := mkSubset (set s) (take (length (idxs s) - 1) (idxs s))
                      (totalValue s) (totalValueAge s) in
          (_ ← subTotals back; mret back) s1
      end
  end.

Definition popFront : M subset Coin := λ s,
  match idxs s with
  | [] => (Panic IndexOutOfRange, s)         (* s.idxs[0] *)
  | i :: rest =>
      let s1 := mkSubset (set s) rest (totalValue s) (totalValueAge s) in
      match at_index (set s1) i with
      | None => (Panic IndexOutOfRange, s1)
      | Some front => (_ ← subTotals front; mret front) s1
      end
  end.

Definition indexes (s : subset) : list Z := idxs s.

(** ** Greedy index-order selection *)

(** The loop of [SelectMinIndex] from position [i] on, with [k] positions
    left before [numCoins]: [k = 0] is [i < numCoins] being false. *)
Fixpoint SelectMinIndex_loop (a : Args) (target : Z) (k : nat)
    (i : Z) (sel : list Coin) (total : Z) : M Coins (go_result (list Z)) :=
  match k with
  | O => mret (Err ErrCoinsNoSelectionAvailable)
  | S k' =>
      if i <? MaxInputs a then
        coin ← Coins.AmountCoin i;
        let sel := sel ++ [coin] in
        let total := Int64.add total (Amount coin) in
        if satisfiesTargetAmount target (MinChangeAmount a) total
        then mret (Ok (Z.of_nat <$> seq 0 (length sel)))
        else SelectMinIndex_loop a target k' (i + 1) sel total
      else mret (Err ErrCoinsNoSelectionAvailable)
  end.

(** The run-time system under the program.  [make([]T, 0, n)] panics
    ("makeslice: cap out of range") when [n] is negative and when [n]
    elements are more than the run-time system can address:
    [maxSliceCap] is the largest capacity it accepts for a slice of
    interface values such as [[]AmountCoin].  The bound differs between
    platforms and versions of Go, so it is a parameter; it is the size
    of the memory the run-time system manages divided by the two words
    of an interface value, which on every platform with a 64-bit [int]
    lies between [2^16] and [2^60].  A capacity within the bound that
    the machine has no memory for is outside the model. *)
Class Runtime := {
  maxSliceCap : Z;
  maxSliceCap_lower : 65536 <= maxSliceCap;
  maxSliceCap_upper : maxSliceCap < 2 ^ 60
}.

(** [make([]AmountCoin, 0, a.MaxInputs)] panics when the capacity is
    negative or beyond [maxSliceCap]. *)
Definition SelectMinIndex `{Runtime} (a : Args) (target : Z)
  : M Coins (go_result (list Z)) :=
  if (MaxInputs a <? 0) || (maxSliceCap <? MaxInputs a)
  then raise MakesliceCapOutOfRange
  else
    numCoins ← Coins.Len;
    SelectMinIndex_loop a target (Z.to_nat numCoins) 0 [] 0.

(** ** Sorting *)

(** The [Less] methods, on the two coins the indices name. *)
Definition byValueAge_Less (ci cj : Coin) : bool := ValueAge ci <? ValueAge cj.
Definition byAmount_Less (ci cj : Coin) : bool := Amount ci <? Amount cj.

(** [sort.Reverse]: [Less(i, j)] of the reversed order is [Less(j, i)]. *)
Definition Reverse (less : Coin → Coin → bool) : Coin → Coin → bool :=
  λ ci cj, less cj ci.

Record StrictWeakOrder (less : Coin → Coin → bool) : Prop := {
  swo_irrefl : ∀ x, less x x = false;
  swo_trans : ∀ x y z, less x y = true → less y z = true → less x z = true;
  swo_incomp : ∀ x y z, less x y = false → less y z = false → less x z = false
}.

Fixpoint apply_swaps (sw : list (Z * Z)) (l : list Coin) : list Coin :=
  match sw with
  | [] => l
  | (i, j) :: sw' =>
      match swap_elems i j l with
      | Some l' => apply_swaps sw' l'
      | None => l
      end
  end.

(** Every [Swap(i, j)] of the list is on positions of a collection of
    [n] coins. *)
Definition swaps_within (n : nat) (sw : list (Z * Z)) : Prop :=
  Forall (λ p, 0 <= p.1 < Z.of_nat n ∧ 0 <= p.2 < Z.of_nat n) sw.

(** Go's [sort.Sort] reaches the data only through [Len], [Less] and
    [Swap].  Which swaps it makes depends on the version of the library;
    what every version guarantees is that they stay inside the
    collection and leave it sorted when [Less] is a strict weak order.
    The sort is not stable. *)
Class SortSort := {
  sort_swaps : (Coin → Coin → bool) → list Coin → list (Z * Z);
  sort_swaps_in_range : ∀ less l, swaps_within (length l) (sort_swaps less l);
  sort_swaps_sorted : ∀ less l,
    StrictWeakOrder less →
    Sorted (λ x y, less y x = false) (apply_swaps (sort_swaps less l) l)
}.

Fixpoint do_swaps (sw : list (Z * Z)) : M Coins unit :=
  match sw with
  | [] => mret tt
  | (i, j) :: sw' => _ ← Coins.Swap i j; do_swaps sw'
  end.

Definition sort_Sort `{SortSort} (less : Coin → Coin → bool) : M Coins unit :=
  λ c, do_swaps (sort_swaps less (elems c)) c.

(** Go's [insertionSort(data, 0, n)], the algorithm [sort.Sort] runs on
    short inputs.  [insertion_inner] is the loop
    [for j := i; j > 0 && data.Less(j, j-1); j-- { data.Swap(j, j-1) }]. *)
Fixpoint insertion_inner (less : Coin → Coin → bool) (j : nat) (l : list Coin)
  : list (Z * Z) * list Coin :=
  match j with
  | O => ([], l)
  | S j' =>
      match l !! j, l !! j' with
      | Some x, Some y =>
          if less x y then
            let r := insertion_inner less j' (<[j' := x]> (<[j := y]> l)) in
            ((Z.of_nat j, Z.of_nat j') :: r.1, r.2)
          else ([], l)
      | _, _ => ([], l)
      end
  end.

Definition insertion_outer (less : Coin → Coin → bool)
    (acc : list (Z * Z) * list Coin) (i : nat) : list (Z * Z) * list Coin :=
  let r := insertion_inner less i acc.2 in (acc.1 ++ r.1, r.2).

Definition insertionSort (less : Coin → Coin → bool) (l : list Coin)
  : list (Z * Z) :=
  (foldl (insertion_outer less) ([], l) (seq 1 (length l - 1))).1.

(** What the inner loop computes, on the part of the list before the
    element [x] it moves, read from [x] backwards: [x] passes every
    element it is less than and stops at the first it is not. *)
Fixpoint insert_back (less : Coin → Coin → bool) (x : Coin) (r : list Coin)
  : list Coin :=
  match r with
  | [] => [x]
  | y :: r' => if less x y then y :: insert_back less x r' else x :: y :: r'
  end.

(** ** The sorting wrappers *)

Definition MinNumberSelect `{Runtime} `{SortSort} (a : Args) (target : Z)
  : M Coins (go_result (list Z)) :=
  _ ← sort_Sort (Reverse byAmount_Less);
  SelectMinIndex a target.

Definition MaxValueAgeSelect `{Runtime} `{SortSort} (a : Args) (target : Z)
  : M Coins (go_result (list Z)) :=
  _ ← sort_Sort (Reverse byValueAge_Less);
  SelectMinIndex a target.

(** ** Minimum-average-priority selection *)

(** Modelled from the spec: the coin set [CoinSet] that [MinPrioritySelect]
    builds and returns ([NewCoinSet], [PushCoin], [PopCoin], [Num],
    [TotalValue], [TotalValueAge], [Coins]) is declared nowhere in
    coins.go.  It is the "fully materialized ordered coin subset with its
    cached totals" of the spec: coins in the order they were pushed, and
    the two totals kept as the subset accumulator keeps them. *)
Record CoinSet : Set := mkCoinSet {
  coinList : list Coin;
  cs_totalValue : Z;
  cs_totalValueAge : Z
}.

(** Modelled from the spec: [PushCoin], absent from coins.go; appends the
    coin and adds its amount and value-age to the totals. *)
Definition PushCoin (c : Coin) (cs : CoinSet) : CoinSet :=
  mkCoinSet (coinList cs ++ [c])
            (Int64.add (cs_totalValue cs) (Amount c))
            (Int64.add (cs_totalValueAge cs) (ValueAge c)).

(** Modelled from the spec: [NewCoinSet], absent from coins.go; the set
    of the given coins, its totals summed once over them. *)
Definition NewCoinSet (coins : list Coin) : CoinSet :=
  foldl (λ cs c, PushCoin c cs) (mkCoinSet [] 0 0) coins.

(** Modelled from the spec: [PopCoin], absent from coins.go; removes the
    last coin and subtracts its contribution from the totals.  The body
    of [MinPrioritySelect] calls it only right after a [PushCoin]. *)
Definition PopCoin (cs : CoinSet) : CoinSet :=
  match last (coinList cs) with
  | Some c =>
      mkCoinSet (take (length (coinList cs) - 1) (coinList cs))
                (Int64.sub (cs_totalValue cs) (Amount c))
                (Int64.sub (cs_totalValueAge cs) (ValueAge c))
  | None => cs
  end.

(** Modelled from the spec: [Num], [TotalValue] and [TotalValueAge],
    absent from coins.go; the number of coins and the cached totals. *)
Definition Num (cs : CoinSet) : Z := Z.of_nat (length (coinList cs)).
Definition TotalValue (cs : CoinSet) : Z := cs_totalValue cs.
Definition TotalValueAge (cs : CoinSet) : Z := cs_totalValueAge cs.

(** [coins[lo:hi]] shares its storage with [coins]: a computation on the
    slice acts on positions [lo .. hi-1] of the collection, and its
    [Swap(i, j)] is [Swap(lo+i, lo+j)] there. *)
Definition onSlice {A} (lo hi : Z) (m : M Coins A) : M Coins A := λ c,
  if (0 <=? lo) && (lo <=? hi) && (hi <=? Z.of_nat (length (elems c))) then
    let l := elems c in
    let view := take (Z.to_nat (hi - lo)) (drop (Z.to_nat lo) l) in
    let '(r, v) := m (mkCoins view []) in
    (r, mkCoins (take (Z.to_nat lo) l ++ elems v ++ drop (Z.to_nat hi) l)
                (swapped c ++ ((λ p, (lo + p.1, lo + p.2)) <$> swapped v)))
  else (Panic IndexOutOfRange, c).

(** The coins of [coins[lo:hi]], in order. *)
Definition sliceCoins (lo hi : Z) : M Coins (list Coin) :=
  onSlice lo hi (λ v, (Done (elems v), v)).

(** The coins an index list names, in order. *)
Fixpoint coinsAt (idxs : list Z) : M Coins (list Coin) :=
  match idxs with
  | [] => mret []
  | i :: rest => c ← Coins.Coin i; cs ← coinsAt rest; mret (c :: cs)
  end.

Section MinPrioritySelect_body.

Context `{Runtime} `{SortSort}.

(** The call of [MinPrioritySelect] on [coins[0:cutoffIndex]] that the
    body makes. *)
Variable self : Args → Z → Z → M Coins (go_result CoinSet).

Variable a : Args.
Variables minAvgValueAgePerInput target : Z.

(** Lines 216-223: the first index whose coin has enough value-age, or
    [-1]; [k] positions are left before [numCoins]. *)
Fixpoint findCutoff (k : nat) (i : Z) : M Coins Z :=
  match k with
  | O => mret (-1)
  | S k' =>
      c ← Coins.ValueAgeCoin i;
      if minAvgValueAgePerInput <=? ValueAge c then mret i
      else findCutoff k' (i + 1)
  end.

Variable cutoffIndex : Z.

(** Lines 237-261, for the window [coins[cutoffIndex : i+1]]; [k] values
    of [numLow] are left before it exceeds [cutoffIndex].  [None] is
    the loop ending without a return. *)
Fixpoint lowLoop (i : Z) (k : nat) (numLow : Z) : M Coins (option CoinSet) :=
  match k with
  | O => mret None
  | S k' =>
      if numLow + (i - cutoffIndex) <=? MaxInputs a then
        high ← sliceCoins cutoffIndex (i + 1);
        let allHigh := NewCoinSet high in
        let newTargetValue := Int64.sub target (TotalValue allHigh) in
        let newMaxInputs := Num allHigh + numLow in
        let newMaxInputs :=
          if numLow <? newMaxInputs then numLow else newMaxInputs in
        let newMinAvgValueAge :=
          Int64.quot
            (Int64.sub (Int64.mul minAvgValueAgePerInput (Num allHigh + numLow))
                       (TotalValueAge allHigh))
            numLow in
        lowSelect ← onSlice 0 cutoffIndex
                      (self (mkArgs newMaxInputs (MinChangeAmount a))
                            newMinAvgValueAge newTargetValue);
        match lowSelect with
        | Err _ => lowLoop i k' (numLow + 1)
        | Ok low =>
            mret (Some (foldl (λ cs c, PushCoin c cs) allHigh (coinList low)))
        end
      else mret None
  end.

(** Lines 267-280; [k] positions are left before [cutoffIndex]. *)
Fixpoint extendLoop (k : nat) (n : Z) (extendedCoins : CoinSet)
  : M Coins CoinSet :=
  match k with
  | O => mret extendedCoins
  | S k' =>
      if MaxInputs a <=? Num extendedCoins then mret extendedCoins
      else
        c ← Coins.ValueAgeCoin n;
        if ValueAge c =? 0 then extendLoop k' (n + 1) extendedCoins
        else
          let pushed := PushCoin c extendedCoins in
          if Int64.quot (TotalValueAge pushed) (Num pushed)
               <? minAvgValueAgePerInput
          then extendLoop k' (n + 1) (PopCoin pushed)
          else extendLoop k' (n + 1) pushed
  end.

(** Lines 229-283; [k] positions are left before [numCoins]. *)
Fixpoint highLoop (k : nat) (i : Z) : M Coins (go_result CoinSet) :=
  match k with
  | O => mret (Err ErrCoinsNoSelectionAvailable)
  | S k' =>
      highSelect ← onSlice cutoffIndex (i + 1) (MinNumberSelect a target);
      match highSelect with
      | Err _ =>
          r ← lowLoop i (Z.to_nat cutoffIndex) 1;
          match r with
          | Some allHigh => mret (Ok allHigh)
          | None => highLoop k' (i + 1)
          end
      | Ok idxs =>
          high ← onSlice cutoffIndex (i + 1) (coinsAt idxs);
          extendedCoins ← extendLoop (Z.to_nat cutoffIndex) 0 (NewCoinSet high);
          mret (Ok extendedCoins)
      end
  end.

End MinPrioritySelect_body.

(** The body of [MinPrioritySelect], with the recursive call as a
    parameter.  The source does not compile as it stands; it is read as
    follows.  [targetValue] and [newTargetVAlue] are [target] and
    [newTargetValue]; [s.MaxInputs] and [s.MinAvgValueAgePerInput] are
    [a.MaxInputs] and [minAvgValueAgePerInput]; [coins[lo:hi]] is the
    slice of the collection and [coins[n]] its coin [n];
    [highSelect.Coins()] and [lowSelect.Coins()] are the coins selected;
    the value returned is the coin set built, where the signature
    promises its index list. *)
Definition MinPrioritySelect_body `{Runtime} `{SortSort}
    (self : Args → Z → Z → M Coins (go_result CoinSet))
    (a : Args) (minAvgValueAgePerInput target : Z)
  : M Coins (go_result CoinSet) :=
  _ ← sort_Sort byValueAge_Less;
  numCoins ← Coins.Len;
  cutoffIndex ← findCutoff minAvgValueAgePerInput (Z.to_nat numCoins) 0;
  if cutoffIndex <? 0 then mret (Err ErrCoinsNoSelectionAvailable)
  else highLoop self a minAvgValueAgePerInput target cutoffIndex
         (Z.to_nat (numCoins - cutoffIndex)) cutoffIndex.

(** The recursive call is on [coins[0:cutoffIndex]], which is shorter than
    [coins]: [n] bounds the length of the collection, and a collection of
    length [0] makes no recursive call. *)
Fixpoint MinPrioritySelect_rec `{Runtime} `{SortSort} (n : nat)
    (a : Args) (minAvgValueAgePerInput target : Z)
  : M Coins (go_result CoinSet) :=
  MinPrioritySelect_body
    (match n with
     | O => λ _ _ _, mret (Err ErrCoinsNoSelectionAvailable)
     | S n' => MinPrioritySelect_rec n'
     end)
    a minAvgValueAgePerInput target.

Definition MinPrioritySelect `{Runtime} `{SortSort}
    (a : Args) (minAvgValueAgePerInput target : Z)
  : M Coins (go_result CoinSet) :=
  λ c, MinPrioritySelect_rec (length (elems c)) a minAvgValueAgePerInput target c.

(** * Specifications *)

(** The exact sum of a list of integers. *)
Definition Zsum (l : list Z) : Z := foldr Z.add 0 l.

(** The total [SelectMinIndex] holds after it has accumulated the first
    [n] coins: their amounts, added as 64-bit integers. *)
Definition accTotal (l : list Coin) (n : nat) : Z :=
  Int64.wrap (Zsum (Amount <$> take n l)).

(** The claim on the target predicate, for given arguments. *)
Definition predicate_spec (target minChange total : Z) : Prop :=
  satisfiesTargetAmount target minChange total = true
  ↔ (total = target ∨ total - target >= minChange).

(** The index list [[0, 1, ..., i]]. *)
Definition upto (i : nat) : list Z := Z.of_nat <$> seq 0 (S i).

(** The claim on [SelectMinIndex]: the positions scanned are those below
    [min(len, max_inputs)]; the result is [[0..i]] for the first of them
    whose accumulated total satisfies the predicate, and the error when
    there is none. *)
Definition SelectMinIndex_spec `{Runtime} (a : Args) (target : Z) (c : Coins) : Prop :=
  let n := Z.min (Z.of_nat (length (elems c))) (MaxInputs a) in
  let sat (i : nat) :=
    satisfiesTargetAmount target (MinChangeAmount a) (accTotal (elems c) (S i)) in
  (∀ i : nat, Z.of_nat i < n → sat i = true →
     (∀ j : nat, (j < i)%nat → sat j = false) →
     (SelectMinIndex a target c).1 = Done (Ok (upto i)))
  ∧ ((∀ i : nat, Z.of_nat i < n → sat i = false) →
     (SelectMinIndex a target c).1 = Done (Err ErrCoinsNoSelectionAvailable)).

(** The claim that a selection is never empty, and its consequence. *)
Definition nonempty_selection_spec `{Runtime} (a : Args) (target : Z) (c : Coins) : Prop :=
  (∀ idxs, (SelectMinIndex a target c).1 = Done (Ok idxs) → idxs ≠ [])
  ∧ (elems c = [] ∨ MaxInputs a <= 0 →
     (SelectMinIndex a target c).1 = Done (Err ErrCoinsNoSelectionAvailable)).

(** The sum of [f] over the coins that the indices [idxs] name in the
    collection [l]. *)
Definition sumOver (f : Coin → Z) (l : list Coin) (idxs : list Z) : Z :=
  Zsum ((λ i, from_option f 0 (at_index l i)) <$> idxs).

(** [c'] is [c] after [Swap] calls on it: the same storage, reordered. *)
Definition reordered_by_swaps (c c' : Coins) : Prop :=
  ∃ sw, swaps_within (length (elems c)) sw
        ∧ elems c' = apply_swaps sw (elems c)
        ∧ swapped c' = swapped c ++ sw.

Definition non_increasing (key : Coin → Z) (l : list Coin) : Prop :=
  ∀ (i j : nat) x y, (i < j)%nat → l !! i = Some x → l !! j = Some y →
    key y <= key x.

(** A sequence of operations on a subset. *)
Inductive subset_op : Set := PushBack (i : Z) | PopBack | PopFront.

Definition exec (o : subset_op) : M subset unit :=
  match o with
  | PushBack i => pushBack i
  | PopBack => _ ← popBack; mret tt
  | PopFront => _ ← popFront; mret tt
  end.

Fixpoint run (ops : list subset_op) : M subset unit :=
  match ops with
  | [] => mret tt
  | o :: ops' => _ ← exec o; run ops'
  end.

(** The subset invariant: every index names a coin of the collection, and
    the cached totals are the 64-bit sums over the current indices. *)
Definition subset_invariant (s : subset) : Prop :=
  Forall (λ i, is_Some (at_index (set s) i)) (idxs s)
  ∧ totalValue s = Int64.wrap (sumOver Amount (set s) (idxs s))
  ∧ totalValueAge s = Int64.wrap (sumOver ValueAge (set s) (idxs s)).

(** The totals as a loop over the indices recomputes them. *)
Definition recompute (f : Coin → Z) (l : list Coin) (idxs : list Z) : Z :=
  foldl (λ t i, Int64.add t (from_option f 0 (at_index l i))) 0 idxs.

(** The sequence never pops from an empty subset and only pushes indices
    of the collection; [n] is the number of indices the subset holds. *)
Fixpoint ops_ok (coins : list Coin) (n : nat) (ops : list subset_op) : Prop :=
  match ops with
  | [] => True
  | PushBack i :: ops' => is_Some (at_index coins i) ∧ ops_ok coins (S n) ops'
  | PopBack :: ops' | PopFront :: ops' => (0 < n)%nat ∧ ops_ok coins (n - 1) ops'
  end.

(** The index list of a subset after a sequence of operations, as a
    double-ended queue: pushes at the back, pops at either end. *)
Fixpoint idxs_after (l : list Z) (ops : list subset_op) : list Z :=
  match ops with
  | [] => l
  | PushBack i :: ops' => idxs_after (l ++ [i]) ops'
  | PopBack :: ops' => idxs_after (take (length l - 1) l) ops'
  | PopFront :: ops' => idxs_after (drop 1 l) ops'
  end.

(** The collection a wrapper scans: the caller's, sorted by a key in
    descending order. *)
Definition sorted_desc `{SortSort} (key : Coin → Z) (l : list Coin) : list Coin :=
  apply_swaps (sort_swaps (Reverse (λ ci cj, key ci <? key cj)) l) l.

(** The claim that only the two sorting wrappers reorder the collection:
    the other two selection functions, [SelectMinIndex] and
    [MinPrioritySelect], leave its coins in the order they were in. *)
Definition only_wrappers_reorder `{Runtime} `{SortSort} : Prop :=
  (∀ a target c, (SelectMinIndex a target c).2 = c)
  ∧ (∀ a minAvg target c,
       elems (MinPrioritySelect a minAvg target c).2 = elems c).

(** A computation only adds to the log of [Swap] calls. *)
Definition log_grows {A} (m : M Coins A) : Prop :=
  ∀ c, ∃ sw, swapped (m c).2 = swapped c ++ sw.

#[global] Instance Coin_eq_dec : EqDecision Coin.
Proof. solve_decision. Defined.

Definition non_decreasing (key : Coin → Z) (l : list Coin) : Prop :=
  ∀ (i j : nat) x y, (i < j)%nat → l !! i = Some x → l !! j = Some y →
    key x <= key y.

(** * Proofs *)

(** ** 64-bit arithmetic *)

Lemma wrap_id z : Int64.in_range z → Int64.wrap z = z.
Proof.
  unfold Int64.in_range, Int64.wrap, Int64.min_int, Int64.max_int, Int64.modulus.
  intros Hz. rewrite Z.mod_small; lia.
Qed.

Lemma wrap_in_range z : Int64.in_range (Int64.wrap z).
Proof.
  unfold Int64.in_range, Int64.wrap, Int64.min_int, Int64.max_int, Int64.modulus.
  pose proof (Z.mod_pos_bound (z + 2 ^ 63) (2 ^ 64)). lia.
Qed.

Lemma wrap_add_l x y : Int64.wrap (Int64.wrap x + y) = Int64.wrap (x + y).
Proof.
  unfold Int64.wrap, Int64.modulus. f_equal.
  replace ((x + 2 ^ 63) mod 2 ^ 64 - 2 ^ 63 + y + 2 ^ 63)
    with ((x + 2 ^ 63) mod 2 ^ 64 + y) by lia.
  rewrite Zplus_mod_idemp_l. f_equal. lia.
Qed.

Lemma wrap_sub_l x y : Int64.wrap (Int64.wrap x - y) = Int64.wrap (x - y).
Proof. apply (wrap_add_l x (- y)). Qed.

Lemma wrap_0 : Int64.wrap 0 = 0.
Proof. reflexivity. Qed.

(** ** The target predicate *)

Lemma satisfiesTargetAmount_no_overflow target minChange total :
  Int64.in_range (target + minChange) →
  satisfiesTargetAmount target minChange total = true
  ↔ (total = target ∨ target + minChange <= total).
Proof.
  intros Hr. unfold satisfiesTargetAmount, Int64.add.
  rewrite (wrap_id _ Hr), orb_true_iff, Z.eqb_eq, Z.leb_le. tauto.
Qed.

(** ** The monad and the collection *)

Lemma bind_Done {S A B} (m : M S A) (f : A → M S B) s a s' :
  m s = (Done a, s') → (x ← m; f x) s = f a s'.
Proof. intros E. unfold mbind, M_bind. by rewrite E. Qed.

Lemma at_index_nat {A} (l : list A) (i : nat) : at_index l (Z.of_nat i) = l !! i.
Proof.
  unfold at_index. destruct (Z.ltb_spec (Z.of_nat i) 0); [lia|].
  by rewrite Nat2Z.id.
Qed.

Lemma at_index_is_Some {A} (l : list A) i :
  0 <= i < Z.of_nat (length l) → is_Some (at_index l i).
Proof.
  intros Hi. unfold at_index. destruct (Z.ltb_spec i 0); [lia|].
  apply lookup_lt_is_Some. lia.
Qed.

Lemma get_nat c (i : nat) x :
  elems c !! i = Some x → Coins.get (Z.of_nat i) c = (Done x, c).
Proof. intros E. unfold Coins.get. by rewrite at_index_nat, E. Qed.

Lemma get_frame i c : (Coins.get i c).2 = c.
Proof. unfold Coins.get. by destruct (at_index _ _). Qed.

(** ** [SelectMinIndex] *)

Lemma Zsum_app l1 l2 : Zsum (l1 ++ l2) = Zsum l1 + Zsum l2.
Proof. unfold Zsum. induction l1 as [|x l1 IH]; simpl; lia. Qed.

Lemma accTotal_S l (i : nat) x :
  l !! i = Some x → accTotal l (S i) = Int64.add (accTotal l i) (Amount x).
Proof.
  intros E. unfold accTotal, Int64.add.
  rewrite (take_S_r _ _ _ E), fmap_app, Zsum_app, wrap_add_l.
  simpl. f_equal. lia.
Qed.

Lemma cap_cases `{Runtime} (a : Args) :
  (MaxInputs a < 0 ∨ maxSliceCap < MaxInputs a)
  ∨ 0 <= MaxInputs a <= maxSliceCap.
Proof. lia. Qed.

Section SelectMinIndex_proofs.

Context `{Runtime}.
Variables (a : Args) (target : Z) (c : Coins).

Let sat (i : nat) : bool :=
  satisfiesTargetAmount target (MinChangeAmount a) (accTotal (elems c) (S i)).

(** The collection is the same after the loop, however it ends. *)
Lemma SelectMinIndex_loop_frame k i sel total :
  (SelectMinIndex_loop a target k i sel total c).2 = c.
Proof.
  revert i sel total. induction k as [|k IH]; intros i sel total; simpl; [done|].
  destruct (i <? MaxInputs a); [|done].
  unfold mbind, M_bind, Coins.AmountCoin.
  pose proof (get_frame i c) as Hf.
  destruct (Coins.get i c) as [[x|p] c'] eqn:E; simpl in Hf; subst c'; [|done].
  destruct (satisfiesTargetAmount _ _ _); [done|]. apply IH.
Qed.

(** One turn of the loop at a position inside the collection and the
    budget. *)
Lemma SelectMinIndex_loop_step k (i : nat) x :
  elems c !! i = Some x → Z.of_nat i < MaxInputs a →
  SelectMinIndex_loop a target (S k) (Z.of_nat i)
    (take i (elems c)) (accTotal (elems c) i) c
  = if sat i then (Done (Ok (upto i)), c)
    else SelectMinIndex_loop a target k (Z.of_nat (S i))
           (take (S i) (elems c)) (accTotal (elems c) (S i)) c.
Proof.
  intros E Hi. simpl.
  destruct (Z.ltb_spec (Z.of_nat i) (MaxInputs a)); [|lia].
  unfold Coins.AmountCoin. rewrite (bind_Done _ _ _ _ _ (get_nat _ _ _ E)).
  rewrite <- (accTotal_S _ _ _ E), <- (take_S_r _ _ _ E).
  unfold sat. destruct (satisfiesTargetAmount _ _ _).
  - unfold mret, M_ret, upto. do 3 f_equal.
    rewrite length_take. apply lookup_lt_Some in E. rewrite Nat.min_l by lia. done.
  - do 2 f_equal. lia.
Qed.

Lemma SelectMinIndex_loop_found k (i j : nat) :
  (i + k = length (elems c))%nat → (i <= j)%nat → (j < length (elems c))%nat →
  Z.of_nat j < MaxInputs a → sat j = true →
  (∀ j' : nat, (i <= j')%nat → (j' < j)%nat → sat j' = false) →
  SelectMinIndex_loop a target k (Z.of_nat i)
    (take i (elems c)) (accTotal (elems c) i) c
  = (Done (Ok (upto j)), c).
Proof.
  revert i. induction k as [|k IH]; intros i Hk Hij Hj Hmax Hsat Hmin; [lia|].
  destruct (lookup_lt_is_Some_2 (elems c) i) as [x E]; [lia|].
  rewrite (SelectMinIndex_loop_step _ _ _ E); [|lia].
  destruct (sat i) eqn:Hi.
  - destruct (decide (i = j)) as [->|Hne]; [done|].
    rewrite Hmin in Hi; [done|lia|lia].
  - apply IH; [lia| |done|done|done|].
    + destruct (decide (i = j)) as [->|Hne]; [congruence|lia].
    + intros j' ? ?. apply Hmin; lia.
Qed.

Lemma SelectMinIndex_loop_none k (i : nat) :
  (i + k = length (elems c))%nat →
  (∀ j : nat, (i <= j)%nat → (j < length (elems c))%nat →
     Z.of_nat j < MaxInputs a → sat j = false) →
  SelectMinIndex_loop a target k (Z.of_nat i)
    (take i (elems c)) (accTotal (elems c) i) c
  = (Done (Err ErrCoinsNoSelectionAvailable), c).
Proof.
  revert i. induction k as [|k IH]; intros i Hk Hnone; [done|].
  destruct (Z.ltb_spec (Z.of_nat i) (MaxInputs a)) as [Hlt|Hge].
  - destruct (lookup_lt_is_Some_2 (elems c) i) as [x E]; [lia|].
    rewrite (SelectMinIndex_loop_step _ _ _ E Hlt).
    rewrite Hnone; [|lia|lia|done].
    apply IH; [lia|]. intros j ? ? ?. apply Hnone; lia.
  - simpl. destruct (Z.ltb_spec (Z.of_nat i) (MaxInputs a)); [lia|done].
Qed.

(** A list the loop returns has as many indices as coins were
    accumulated: at least one, at most [MaxInputs]. *)
Lemma SelectMinIndex_loop_length k i sel total idxs c' :
  i = Z.of_nat (length sel) →
  SelectMinIndex_loop a target k i sel total c = (Done (Ok idxs), c') →
  0 < Z.of_nat (length idxs) <= MaxInputs a.
Proof.
  revert i sel total. induction k as [|k IH]; intros i sel total Hi; simpl; [done|].
  destruct (Z.ltb_spec i (MaxInputs a)); [|done].
  unfold mbind, M_bind, Coins.AmountCoin.
  destruct (Coins.get i c) as [[x|p] c1] eqn:E; [|done].
  pose proof (get_frame i c) as Hf. rewrite E in Hf. simpl in Hf. subst c1.
  destruct (satisfiesTargetAmount _ _ _).
  - intros [= <- <-]. rewrite length_fmap, length_seq, length_app. simpl. lia.
  - apply IH. rewrite length_app. simpl. lia.
Qed.

Lemma SelectMinIndex_unfold :
  0 <= MaxInputs a <= maxSliceCap →
  SelectMinIndex a target c
  = SelectMinIndex_loop a target (length (elems c)) 0 [] 0 c.
Proof.
  intros Hm. unfold SelectMinIndex.
  destruct (Z.ltb_spec (MaxInputs a) 0); [lia|].
  destruct (Z.ltb_spec maxSliceCap (MaxInputs a)); [lia|]. simpl.
  unfold mbind, M_bind, Coins.Len. by rewrite Nat2Z.id.
Qed.

Lemma SelectMinIndex_negative :
  MaxInputs a < 0 ∨ maxSliceCap < MaxInputs a →
  SelectMinIndex a target c = (Panic MakesliceCapOutOfRange, c).
Proof.
  intros Hm. unfold SelectMinIndex.
  destruct (Z.ltb_spec (MaxInputs a) 0); [done|].
  by destruct (Z.ltb_spec maxSliceCap (MaxInputs a)); [|lia].
Qed.

(** A capacity up to [2^16] is within the bound of every run-time
    system. *)
Lemma SelectMinIndex_small :
  0 <= MaxInputs a <= 65536 →
  SelectMinIndex a target c
  = SelectMinIndex_loop a target (length (elems c)) 0 [] 0 c.
Proof.
  intros Hm. apply SelectMinIndex_unfold.
  pose proof maxSliceCap_lower. lia.
Qed.

Lemma SelectMinIndex_frame : (SelectMinIndex a target c).2 = c.
Proof.
  destruct (cap_cases a) as [Hlt|Hge].
  - by rewrite SelectMinIndex_negative.
  - rewrite SelectMinIndex_unfold by done. apply SelectMinIndex_loop_frame.
Qed.

Lemma SelectMinIndex_length idxs c' :
  SelectMinIndex a target c = (Done (Ok idxs), c') →
  0 < Z.of_nat (length idxs) <= MaxInputs a.
Proof.
  destruct (cap_cases a) as [Hlt|Hge].
  - by rewrite SelectMinIndex_negative.
  - rewrite SelectMinIndex_unfold by done.
    by apply SelectMinIndex_loop_length.
Qed.

End SelectMinIndex_proofs.

(** ** Swaps *)

Lemma swap_elems_Some i j l :
  0 <= i < Z.of_nat (length l) → 0 <= j < Z.of_nat (length l) →
  ∃ l', swap_elems i j l = Some l' ∧ length l' = length l ∧ l' ≡ₚ l.
Proof.
  intros Hi Hj. unfold swap_elems.
  destruct (at_index_is_Some l i Hi) as [x Ex].
  destruct (at_index_is_Some l j Hj) as [y Ey].
  rewrite Ex, Ey. eexists. split; [done|]. split.
  - by rewrite !length_insert.
  - apply Permutation_insert_swap.
    + revert Ex. unfold at_index. by destruct (i <? 0).
    + revert Ey. unfold at_index. by destruct (j <? 0).
Qed.

Lemma swap_elems_nat (i j : nat) l x y :
  l !! i = Some x → l !! j = Some y →
  swap_elems (Z.of_nat i) (Z.of_nat j) l = Some (<[j := x]> (<[i := y]> l)).
Proof.
  intros Ex Ey. unfold swap_elems. by rewrite !at_index_nat, Ex, Ey, !Nat2Z.id.
Qed.

Lemma apply_swaps_within sw l :
  swaps_within (length l) sw →
  length (apply_swaps sw l) = length l ∧ apply_swaps sw l ≡ₚ l.
Proof.
  revert l. induction sw as [|[i j] sw IH]; intros l Hsw; simpl; [done|].
  apply Forall_cons in Hsw as [[Hi Hj] Hsw]. simpl in Hi, Hj.
  destruct (swap_elems_Some i j l Hi Hj) as (l' & -> & Hlen & Hperm).
  rewrite <- Hlen in Hsw. destruct (IH l' Hsw) as [IH1 IH2].
  split; [congruence|by etrans].
Qed.

Lemma apply_swaps_app sw1 sw2 l :
  swaps_within (length l) sw1 →
  apply_swaps (sw1 ++ sw2) l = apply_swaps sw2 (apply_swaps sw1 l).
Proof.
  revert l. induction sw1 as [|[i j] sw1 IH]; intros l Hsw; simpl; [done|].
  apply Forall_cons in Hsw as [[Hi Hj] Hsw]. simpl in Hi, Hj.
  destruct (swap_elems_Some i j l Hi Hj) as (l' & -> & Hlen & _).
  apply IH. by rewrite Hlen.
Qed.

(** The [Swap] calls of a sort all succeed: they are applied to the
    collection and logged. *)
Lemma do_swaps_within sw c :
  swaps_within (length (elems c)) sw →
  do_swaps sw c = (Done tt, mkCoins (apply_swaps sw (elems c)) (swapped c ++ sw)).
Proof.
  revert c. induction sw as [|[i j] sw IH]; intros [l log] Hsw; simpl in *.
  { by rewrite app_nil_r. }
  apply Forall_cons in Hsw as [[Hi Hj] Hsw]. simpl in Hi, Hj.
  destruct (swap_elems_Some i j l Hi Hj) as (l' & E & Hlen & _).
  unfold mbind, M_bind, Coins.Swap. simpl. rewrite E.
  rewrite IH; simpl; [|by rewrite Hlen]. by rewrite <- app_assoc.
Qed.

Lemma sort_Sort_eq `{SortSort} less c :
  sort_Sort less c
  = (Done tt, mkCoins (apply_swaps (sort_swaps less (elems c)) (elems c))
                      (swapped c ++ sort_swaps less (elems c))).
Proof. apply do_swaps_within, sort_swaps_in_range. Qed.

(** ** The comparators *)

Lemma byAmount_Less_swo : StrictWeakOrder byAmount_Less.
Proof.
  split; unfold byAmount_Less; intros *; rewrite ?Z.ltb_lt, ?Z.ltb_ge; lia.
Qed.

Lemma byValueAge_Less_swo : StrictWeakOrder byValueAge_Less.
Proof.
  split; unfold byValueAge_Less; intros *; rewrite ?Z.ltb_lt, ?Z.ltb_ge; lia.
Qed.

Lemma Reverse_swo less : StrictWeakOrder less → StrictWeakOrder (Reverse less).
Proof.
  intros [Hi Ht Hc]. split; unfold Reverse; eauto.
Qed.

Lemma swo_asym less x y :
  StrictWeakOrder less → less x y = true → less y x = false.
Proof.
  intros [Hi Ht _] Hxy. destruct (less y x) eqn:Hyx; [|done].
  by rewrite <- (Hi x), (Ht x y x).
Qed.

(** ** Insertion sort meets the contract of [sort.Sort] *)

Section insertion_sort.

Variable less : Coin → Coin → bool.

Let R : relation Coin := λ x y, less y x = false.

Lemma insert_back_length x r : length (insert_back less x r) = S (length r).
Proof. induction r as [|y r IH]; simpl; [done|]. destruct (less x y); simpl; lia. Qed.

Lemma insert_back_sorted x r :
  (∀ u v, less u v = true → less v u = false) →
  Sorted (flip R) r → Sorted (flip R) (insert_back less x r).
Proof.
  intros Hasym. induction 1 as [|y r Hs IH Hhd]; simpl.
  { repeat constructor. }
  destruct (less x y) eqn:Hxy.
  - constructor; [done|].
    destruct r as [|z r]; simpl.
    + constructor. unfold flip, R. by apply Hasym.
    + destruct (less x z).
      * constructor. by inv Hhd.
      * constructor. unfold flip, R. by apply Hasym.
  - constructor; [by constructor|]. by constructor.
Qed.

(** The inner loop, started on [x] at position [length r] with the
    elements [reverse r] before it. *)
Lemma insertion_inner_spec x r q :
  let l := reverse r ++ x :: q in
  let res := insertion_inner less (length r) l in
  res.2 = reverse (insert_back less x r) ++ q
  ∧ apply_swaps res.1 l = res.2
  ∧ swaps_within (length l) res.1.
Proof.
  revert q. induction r as [|y r IH]; intros q; simpl.
  { repeat split. constructor. }
  rewrite reverse_cons, <- app_assoc. simpl.
  assert (Ey : (reverse r ++ y :: x :: q) !! length r = Some y).
  { rewrite <- (length_reverse r). apply list_lookup_middle. done. }
  assert (Ex : (reverse r ++ y :: x :: q) !! S (length r) = Some x).
  { rewrite lookup_app_r; rewrite length_reverse; [|lia].
    by replace (S (length r) - length r)%nat with 1%nat by lia. }
  rewrite Ex, Ey.
  destruct (less x y) eqn:Hxy; simpl.
  - assert (Hsw : <[length r := x]> (<[S (length r) := y]> (reverse r ++ y :: x :: q))
                  = reverse r ++ x :: y :: q).
    { rewrite <- (length_reverse r) at 2.
      replace (S (length (reverse r))) with (length (reverse r) + 1)%nat by lia.
      rewrite insert_app_r. simpl.
      rewrite <- (length_reverse r), <- (Nat.add_0_r (length (reverse r))).
      by rewrite insert_app_r. }
    rewrite Hsw. destruct (IH (y :: q)) as (IH1 & IH2 & IH3).
    simpl in IH1, IH2, IH3.
    rewrite (swap_elems_nat _ _ _ _ _ Ex Ey), Hsw.
    split; [|split].
    + rewrite IH1, reverse_cons, <- app_assoc. done.
    + done.
    + apply Forall_cons. split.
      * simpl. rewrite length_app, length_reverse. simpl. lia.
      * revert IH3. rewrite !length_app. simpl. done.
  - repeat split; [|constructor].
    by rewrite !reverse_cons, <- !app_assoc.
Qed.

Let asym : Prop := ∀ u v, less u v = true → less v u = false.

(** After the outer loop has handled positions [1 .. m], the first
    [m + 1] elements are in order. *)
Lemma insertion_outer_inv l (m : nat) :
  (S m <= length l)%nat →
  let acc := foldl (insertion_outer less) ([], l) (seq 1 m) in
  apply_swaps acc.1 l = acc.2
  ∧ swaps_within (length l) acc.1
  ∧ length acc.2 = length l
  ∧ (asym → Sorted R (take (S m) acc.2)).
Proof.
  induction m as [|m IH]; intros Hm.
  { simpl. repeat split; [constructor|]. intros _. destruct l; repeat constructor. }
  cbv zeta. rewrite seq_S, foldl_app. cbn [foldl Nat.add].
  destruct IH as (IH1 & IH2 & IH3 & IH4); [lia|].
  set (acc := foldl (insertion_outer less) ([], l) (seq 1 m)) in *.
  destruct (lookup_lt_is_Some_2 acc.2 (S m)) as [x Ex]; [lia|].
  pose proof (take_drop_middle _ _ _ Ex) as Hsplit.
  set (r := reverse (take (S m) acc.2)) in *.
  assert (Hr : take (S m) acc.2 = reverse r) by (unfold r; by rewrite reverse_involutive).
  assert (Hlr : length r = S m).
  { unfold r. rewrite length_reverse, length_take. lia. }
  rewrite Hr in Hsplit.
  destruct (insertion_inner_spec x r (drop (S (S m)) acc.2)) as (H1 & H2 & H3).
  rewrite Hsplit, Hlr in H1, H2, H3. unfold insertion_outer. cbn [fst snd].
  split; [|split; [|split]].
  - rewrite apply_swaps_app by done. by rewrite IH1.
  - apply Forall_app. split; [done|]. by rewrite <- IH3.
  - rewrite H1, length_app, length_reverse, insert_back_length, Hlr.
    rewrite length_drop. lia.
  - intros less_asym. specialize (IH4 less_asym). rewrite H1, take_app_length'.
    2: { rewrite length_reverse, insert_back_length. lia. }
    pose proof (insert_back_sorted x r less_asym (Sorted_reverse _ _ IH4)) as Hs.
    apply Sorted_reverse in Hs. revert Hs. unfold flip, R. done.
Qed.

Lemma insertionSort_within l : swaps_within (length l) (insertionSort less l).
Proof.
  unfold insertionSort. destruct l as [|x l]; [constructor|].
  apply (insertion_outer_inv (x :: l) (length (x :: l) - 1)). simpl. lia.
Qed.

Lemma insertionSort_sorted l :
  asym → Sorted R (apply_swaps (insertionSort less l) l).
Proof.
  intros less_asym. unfold insertionSort. destruct l as [|x l]; [constructor|].
  destruct (insertion_outer_inv (x :: l) (length (x :: l) - 1))
    as (H1 & _ & H3 & H4); [simpl; lia|].
  rewrite H1. specialize (H4 less_asym).
  rewrite take_ge in H4; [done|]. rewrite H3. simpl. lia.
Qed.

End insertion_sort.

(** The contract of [sort.Sort] can be met: Go's insertion sort meets
    it. *)
Lemma insertion_sort_Sort : SortSort.
Proof.
  refine {| sort_swaps := insertionSort |}.
  - apply insertionSort_within.
  - intros less l Hswo. apply insertionSort_sorted.
    intros u v. by apply swo_asym.
Defined.

(** A run-time system within the bounds: Go on a 64-bit machine with a
    48-bit address space, where a slice of interface values holds at
    most [2^44] of them. *)
Lemma go_amd64 : Runtime.
Proof.
  refine {| maxSliceCap := 17592186044416 |}.
  - lia.
  - reflexivity.
Defined.

(** ** The sorting wrappers *)

Lemma StronglySorted_lookup {A} (R : relation A) l (i j : nat) x y :
  StronglySorted R l → (i < j)%nat → l !! i = Some x → l !! j = Some y → R x y.
Proof.
  intros Hs. revert i j. induction Hs as [|z l Hs IH Hall]; intros i j Hij Ei Ej.
  { done. }
  destruct j as [|j]; [lia|]. simpl in Ej.
  destruct i as [|i]; simpl in Ei.
  - injection Ei as ->. rewrite Forall_forall in Hall.
    apply Hall. by eapply list_elem_of_lookup_2.
  - eapply IH; [|done..]. lia.
Qed.

Section sorted_by_key.

Context `{SortSort}.
Variable key : Coin → Z.

Let less : Coin → Coin → bool := λ ci cj, key ci <? key cj.

Lemma key_less_swo : StrictWeakOrder less.
Proof. split; unfold less; intros *; rewrite ?Z.ltb_lt, ?Z.ltb_ge; lia. Qed.

Lemma sort_descending l :
  non_increasing key (apply_swaps (sort_swaps (Reverse less) l) l).
Proof.
  pose proof (sort_swaps_sorted _ l (Reverse_swo _ key_less_swo)) as Hs.
  apply Sorted_StronglySorted in Hs.
  - intros i j x y Hij Ei Ej.
    pose proof (StronglySorted_lookup _ _ _ _ _ _ Hs Hij Ei Ej) as Hr.
    unfold Reverse, less in Hr. by apply Z.ltb_ge in Hr.
  - intros x y z. unfold Reverse, less. rewrite !Z.ltb_ge. lia.
Qed.

Lemma sort_Sort_reorders cmp c :
  reordered_by_swaps c (sort_Sort cmp c).2.
Proof.
  rewrite sort_Sort_eq. exists (sort_swaps cmp (elems c)).
  split; [apply sort_swaps_in_range|done].
Qed.

End sorted_by_key.

Lemma swo_not_less_trans less :
  StrictWeakOrder less → Transitive (λ x y : Coin, less y x = false).
Proof. intros [_ _ Hc] x y z Hxy Hyz. by apply (Hc z y x). Qed.

(** When only one order of the coins is sorted, every sort produces it. *)
Lemma sort_unique `{SortSort} less l t :
  StrictWeakOrder less → l ≡ₚ t →
  StronglySorted (λ x y, less y x = false) t →
  (∀ x y, x ∈ t → y ∈ t → less y x = false → less x y = false → x = y) →
  apply_swaps (sort_swaps less l) l = t.
Proof.
  intros Hswo Hperm Hsorted Hanti.
  destruct (apply_swaps_within _ _ (sort_swaps_in_range less l)) as [_ Hp].
  apply (StronglySorted_unique_strong (λ x y, less y x = false)).
  - intros x y Hx Hy. apply Hanti; [by rewrite <- Hperm, <- Hp|done].
  - apply Sorted_StronglySorted; [by apply swo_not_less_trans|].
    by apply sort_swaps_sorted.
  - done.
  - by rewrite Hp.
Qed.

Lemma sort_singleton `{SortSort} less x :
  apply_swaps (sort_swaps less [x]) [x] = [x].
Proof.
  destruct (apply_swaps_within _ _ (sort_swaps_in_range less [x])) as [_ Hp].
  by apply Permutation_singleton_r in Hp.
Qed.

Section wrappers.

Context `{Runtime} `{SortSort}.
Variables (a : Args) (target : Z) (c : Coins).

Lemma MinNumberSelect_eq :
  MinNumberSelect a target c
  = SelectMinIndex a target (sort_Sort (Reverse byAmount_Less) c).2.
Proof.
  unfold MinNumberSelect, mbind, M_bind. by rewrite sort_Sort_eq.
Qed.

Lemma MaxValueAgeSelect_eq :
  MaxValueAgeSelect a target c
  = SelectMinIndex a target (sort_Sort (Reverse byValueAge_Less) c).2.
Proof.
  unfold MaxValueAgeSelect, mbind, M_bind. by rewrite sort_Sort_eq.
Qed.

Lemma selection_length (m : M Coins (go_result (list Z))) idxs :
  (∃ c0, m c = SelectMinIndex a target c0) →
  (m c).1 = Done (Ok idxs) → 0 < Z.of_nat (length idxs) <= MaxInputs a.
Proof.
  intros [c0 ->]. destruct (SelectMinIndex a target c0) as [r c'] eqn:E.
  simpl. intros ->. by eapply SelectMinIndex_length.
Qed.

End wrappers.

(** ** The subset accumulator *)

Lemma sumOver_app f l i1 i2 :
  sumOver f l (i1 ++ i2) = sumOver f l i1 + sumOver f l i2.
Proof. unfold sumOver. by rewrite fmap_app, Zsum_app. Qed.

Lemma sumOver_single f l i x : at_index l i = Some x → sumOver f l [i] = f x.
Proof. intros E. unfold sumOver. simpl. rewrite E. simpl. lia. Qed.

Lemma sumOver_cons_eq f l i rest :
  sumOver f l (i :: rest) = from_option f 0 (at_index l i) + sumOver f l rest.
Proof. reflexivity. Qed.

Lemma sumOver_cons f l i rest x :
  at_index l i = Some x → sumOver f l (i :: rest) = f x + sumOver f l rest.
Proof. intros E. by rewrite sumOver_cons_eq, E. Qed.

Lemma recompute_wrap f l idxs :
  recompute f l idxs = Int64.wrap (sumOver f l idxs).
Proof.
  unfold recompute.
  assert (Hgen : ∀ t, Int64.in_range t →
    foldl (λ t i, Int64.add t (from_option f 0 (at_index l i))) t idxs
    = Int64.wrap (t + sumOver f l idxs)).
  { induction idxs as [|i idxs IH]; intros t Ht; simpl.
    - unfold sumOver. simpl. by rewrite Z.add_0_r, wrap_id.
    - rewrite IH by apply wrap_in_range. unfold Int64.add.
      rewrite wrap_add_l, sumOver_cons_eq. f_equal. lia. }
  apply Hgen. unfold Int64.in_range, Int64.min_int, Int64.max_int. lia.
Qed.

Lemma newSubset_step_Panic coins p l :
  foldl (newSubset_step coins) (Panic p) l = Panic p.
Proof. by induction l. Qed.

Lemma newSubset_fold coins idxs0 t ta l s :
  foldl (newSubset_step coins) (Done (mkSubset coins idxs0 t ta)) l = Done s →
  Forall (λ i, is_Some (at_index coins i)) l
  ∧ s = mkSubset coins idxs0 (Int64.wrap (t + sumOver Amount coins l))
                 (Int64.wrap (ta + sumOver ValueAge coins l))
      ∨ (l = [] ∧ s = mkSubset coins idxs0 t ta).
Proof.
  revert t ta. induction l as [|i l IH]; intros t ta; simpl.
  { intros [= <-]. by right. }
  destruct (at_index coins i) as [x|] eqn:E; [|by rewrite newSubset_step_Panic].
  intros Hs. left. destruct (IH _ _ Hs) as [[Hall ->]|[-> ->]].
  - split; [by constructor|]. unfold Int64.add.
    rewrite !wrap_add_l, !(sumOver_cons _ _ _ _ _ E). f_equal; f_equal; lia.
  - split; [by repeat constructor|]. unfold Int64.add.
    rewrite !(sumOver_single _ _ _ _ E). done.
Qed.

Lemma newSubset_invariant coins idxs0 s :
  newSubset coins idxs0 = Done s →
  set s = coins ∧ idxs s = idxs0 ∧ subset_invariant s.
Proof.
  intros Hs. apply newSubset_fold in Hs as [[Hall ->]|[-> ->]].
  - split; [done|]. split; [done|]. by split.
  - split; [done|]. split; [done|]. split; [constructor|by split].
Qed.

Lemma newSubset_Done coins idxs0 :
  Forall (λ i, is_Some (at_index coins i)) idxs0 →
  ∃ s, newSubset coins idxs0 = Done s.
Proof.
  unfold newSubset. generalize (mkSubset coins idxs0 0 0).
  induction idxs0 as [|i l IH]; intros s0 Hall; simpl; [by eexists|].
  apply Forall_cons in Hall as [[x E] Hall]. rewrite E. by apply IH.
Qed.

Lemma last_split {A} (l : list A) x :
  last l = Some x → l = take (length l - 1) l ++ [x].
Proof.
  intros E. destruct l as [|y l] using rev_ind; [done|].
  rewrite last_snoc in E. injection E as ->.
  rewrite length_app. simpl.
  replace (length l + 1 - 1)%nat with (length l) by lia.
  by rewrite take_app_length.
Qed.

Lemma pushBack_invariant i s s' :
  pushBack i s = (Done tt, s') → subset_invariant s →
  subset_invariant s' ∧ set s' = set s ∧ idxs s' = idxs s ++ [i].
Proof.
  unfold pushBack. simpl. destruct (at_index (set s) i) as [x|] eqn:E; [|done].
  intros [= <-] (Hv & Ht & Hta). simpl. repeat split; simpl.
  - apply Forall_app. split; [done|]. by repeat constructor.
  - rewrite Ht. unfold Int64.add.
    by rewrite wrap_add_l, sumOver_app, (sumOver_single _ _ _ _ E).
  - rewrite Hta. unfold Int64.add.
    by rewrite wrap_add_l, sumOver_app, (sumOver_single _ _ _ _ E).
Qed.

Lemma popBack_invariant back s s' :
  popBack s = (Done back, s') → subset_invariant s →
  subset_invariant s' ∧ set s' = set s
  ∧ ∃ i, idxs s = idxs s' ++ [i] ∧ at_index (set s) i = Some back.
Proof.
  unfold popBack. destruct (last (idxs s)) as [i|] eqn:El; [|done].
  destruct (at_index (set s) i) as [x|] eqn:E; [|done].
  unfold mbind, M_bind, subTotals, mret, M_ret. simpl.
  intros [= <- <-] (Hv & Ht & Hta). simpl.
  pose proof (last_split _ _ El) as Hsplit.
  set (init := take (length (idxs s) - 1) (idxs s)) in *.
  rewrite Hsplit, sumOver_app, (sumOver_single Amount _ _ _ E) in Ht.
  rewrite Hsplit, sumOver_app, (sumOver_single ValueAge _ _ _ E) in Hta.
  rewrite Hsplit in Hv. apply Forall_app in Hv as [Hv _].
  repeat split; simpl; [done| | |by exists i].
  - rewrite Ht. unfold Int64.sub. rewrite wrap_sub_l. f_equal. lia.
  - rewrite Hta. unfold Int64.sub. rewrite wrap_sub_l. f_equal. lia.
Qed.

Lemma popFront_invariant front s s' :
  popFront s = (Done front, s') → subset_invariant s →
  subset_invariant s' ∧ set s' = set s
  ∧ ∃ i, idxs s = i :: idxs s' ∧ at_index (set s) i = Some front.
Proof.
  unfold popFront. destruct (idxs s) as [|i rest] eqn:El; [done|]. simpl.
  destruct (at_index (set s) i) as [x|] eqn:E; [|done].
  unfold mbind, M_bind, subTotals, mret, M_ret. simpl.
  intros [= <- <-] (Hv & Ht & Hta). simpl.
  rewrite El, (sumOver_cons Amount _ _ _ _ E) in Ht.
  rewrite El, (sumOver_cons ValueAge _ _ _ _ E) in Hta.
  rewrite El in Hv. apply Forall_cons in Hv as [_ Hv].
  repeat split; simpl; [done| | |by exists i].
  - rewrite Ht. unfold Int64.sub. rewrite wrap_sub_l. f_equal. lia.
  - rewrite Hta. unfold Int64.sub. rewrite wrap_sub_l. f_equal. lia.
Qed.

Lemma exec_invariant o s s' :
  exec o s = (Done tt, s') → subset_invariant s →
  subset_invariant s' ∧ set s' = set s.
Proof.
  destruct o as [i| |]; simpl.
  - intros E Hinv. by destruct (pushBack_invariant _ _ _ E Hinv) as (? & ? & ?).
  - unfold mbind, M_bind. destruct (popBack s) as [[back|p] s1] eqn:E; [|done].
    intros [= <-] Hinv. by destruct (popBack_invariant _ _ _ E Hinv) as (? & ? & ?).
  - unfold mbind, M_bind. destruct (popFront s) as [[front|p] s1] eqn:E; [|done].
    intros [= <-] Hinv. by destruct (popFront_invariant _ _ _ E Hinv) as (? & ? & ?).
Qed.

Lemma run_invariant ops s s' :
  run ops s = (Done tt, s') → subset_invariant s →
  subset_invariant s' ∧ set s' = set s.
Proof.
  revert s. induction ops as [|o ops IH]; intros s; simpl.
  { by intros [= <-]. }
  unfold mbind, M_bind. destruct (exec o s) as [[[]|p] s1] eqn:E; [|done].
  intros Hrun Hinv. destruct (exec_invariant _ _ _ E Hinv) as [Hinv1 Hset1].
  destruct (IH _ Hrun Hinv1) as [? ?]. split; [done|congruence].
Qed.

(** A sequence that ends normally ends normally at each of its
    operations: the invariant holds after each of them. *)
Lemma run_app ops1 ops2 s s' :
  run (ops1 ++ ops2) s = (Done tt, s') →
  ∃ s1, run ops1 s = (Done tt, s1) ∧ run ops2 s1 = (Done tt, s').
Proof.
  revert s. induction ops1 as [|o ops1 IH]; intros s; simpl.
  { intros E. by exists s. }
  unfold mbind, M_bind. destruct (exec o s) as [[[]|p] s1]; [|done].
  apply IH.
Qed.

(** Under the preconditions on the sequence, no operation panics. *)
Lemma run_completes ops s :
  subset_invariant s → ops_ok (set s) (length (idxs s)) ops →
  ∃ s', run ops s = (Done tt, s').
Proof.
  revert s. induction ops as [|o ops IH]; intros s Hinv Hok; simpl.
  { by eexists. }
  assert (Hex : ∃ s1, exec o s = (Done tt, s1)
                      ∧ ops_ok (set s1) (length (idxs s1)) ops).
  { destruct o as [i| |]; simpl in *.
    - destruct Hok as [[x E] Hok]. unfold pushBack. simpl. rewrite E.
      eexists. split; [done|]. simpl. rewrite length_app. simpl.
      by replace (length (idxs s) + 1)%nat with (S (length (idxs s))) by lia.
    - destruct Hok as [Hn Hok]. destruct Hinv as (Hv & _).
      destruct (idxs s) as [|j l] eqn:El using rev_ind; [simpl in Hn; lia|].
      clear IHl. unfold mbind, M_bind, popBack. rewrite El, last_snoc.
      apply Forall_app in Hv as [_ [[x E] _]%Forall_cons]. rewrite E. simpl.
      eexists. split; [done|]. simpl. rewrite length_app in *. simpl in *.
      rewrite length_take, length_app. simpl.
      by replace ((length l + 1 - 1) `min` (length l + 1))%nat
        with (length l + 1 - 1)%nat by lia.
    - destruct Hok as [Hn Hok]. destruct Hinv as (Hv & _).
      unfold mbind, M_bind, popFront.
      destruct (idxs s) as [|j l] eqn:El; [simpl in Hn; lia|].
      apply Forall_cons in Hv as [[x E] _]. simpl. rewrite E. simpl.
      eexists. split; [done|]. simpl in *. by rewrite Nat.sub_0_r in Hok. }
  destruct Hex as (s1 & E & Hok1).
  destruct (exec_invariant _ _ _ E Hinv) as [Hinv1 _].
  destruct (IH s1 Hinv1 Hok1) as [s' Hs'].
  exists s'. by rewrite (bind_Done _ _ _ _ _ E).
Qed.

(** ** [MinPrioritySelect] *)

Lemma findCutoff_none minAvg c k (i : nat) :
  (i + k = length (elems c))%nat →
  Forall (λ x, ValueAge x < minAvg) (elems c) →
  findCutoff minAvg k (Z.of_nat i) c = (Done (-1), c).
Proof.
  revert i. induction k as [|k IH]; intros i Hk Hall; simpl; [done|].
  destruct (lookup_lt_is_Some_2 (elems c) i) as [x E]; [lia|].
  unfold Coins.ValueAgeCoin. rewrite (bind_Done _ _ _ _ _ (get_nat _ _ _ E)).
  rewrite Forall_forall in Hall.
  pose proof (Hall x (list_elem_of_lookup_2 _ _ _ E)) as Hx.
  destruct (Z.leb_spec minAvg (ValueAge x)); [lia|].
  replace (Z.of_nat i + 1) with (Z.of_nat (S i)) by lia.
  apply IH; [lia|]. by apply Forall_forall.
Qed.

Lemma MinPrioritySelect_body_no_cutoff `{Runtime} `{SortSort} self a minAvg target c :
  Forall (λ x, ValueAge x < minAvg) (elems (sort_Sort byValueAge_Less c).2) →
  MinPrioritySelect_body self a minAvg target c
  = (Done (Err ErrCoinsNoSelectionAvailable), (sort_Sort byValueAge_Less c).2).
Proof.
  intros Hall. unfold MinPrioritySelect_body.
  destruct (sort_Sort byValueAge_Less c) as [r c1] eqn:Es.
  pose proof (sort_Sort_eq byValueAge_Less c) as Es'. rewrite Es in Es'.
  injection Es' as -> Ec1. rewrite (bind_Done _ _ _ _ _ Es).
  unfold Coins.Len at 1. unfold mbind at 1, M_bind at 1. rewrite Nat2Z.id.
  simpl in Hall.
  rewrite (bind_Done _ _ _ _ _ (findCutoff_none minAvg c1 _ 0 eq_refl Hall)).
  done.
Qed.

(** *** The recursion is well founded

    [MinPrioritySelect_rec n] is the function on every collection of at
    most [n] coins: the recursive call is on a strictly shorter slice, so
    the bottom of the recursion is never reached, and [MinPrioritySelect]
    satisfies the equation its source text states. *)

Lemma bind_ext {S A B} (m : M S A) (f1 f2 : A → M S B) s :
  (∀ x s', m s = (Done x, s') → f1 x s' = f2 x s') →
  (x ← m; f1 x) s = (x ← m; f2 x) s.
Proof.
  intros Hf. unfold mbind, M_bind. destruct (m s) as [[x|p] s']; [|done].
  by apply Hf.
Qed.

Lemma onSlice_ext {A} lo hi (m1 m2 : M Coins A) c :
  (∀ v, length (elems v) = Z.to_nat (hi - lo) → m1 v = m2 v) →
  onSlice lo hi m1 c = onSlice lo hi m2 c.
Proof.
  intros Hm. unfold onSlice.
  destruct ((0 <=? lo) && (lo <=? hi) && (hi <=? Z.of_nat (length (elems c))))
    eqn:Hg; [|done].
  apply andb_true_iff in Hg as [[H0 H1]%andb_true_iff H2].
  apply Z.leb_le in H0, H1, H2.
  rewrite Hm; [done|]. simpl. rewrite length_take, length_drop. lia.
Qed.

Lemma findCutoff_bounds minAvg k i c r c' :
  findCutoff minAvg k i c = (Done r, c') →
  c' = c ∧ (r = -1 ∨ i <= r < i + Z.of_nat k).
Proof.
  revert i. induction k as [|k IH]; intros i; simpl.
  { intros [= <- <-]. split; [done|by left]. }
  unfold mbind, M_bind, Coins.ValueAgeCoin.
  pose proof (get_frame i c) as Hf.
  destruct (Coins.get i c) as [[x|p] c1]; simpl in Hf; subst c1; [|done].
  destruct (minAvg <=? ValueAge x).
  - intros [= <- <-]. split; [done|]. right. lia.
  - intros E. destruct (IH _ E) as [-> Hr]. split; [done|]. lia.
Qed.

Section recursion.

Context `{Runtime} `{SortSort}.

Variables self1 self2 : Args → Z → Z → M Coins (go_result CoinSet).
Variable cutoffIndex : Z.

Hypothesis self_agree : ∀ a m t v,
  length (elems v) = Z.to_nat cutoffIndex → self1 a m t v = self2 a m t v.

Lemma lowLoop_ext a m t i k numLow c :
  lowLoop self1 a m t cutoffIndex i k numLow c
  = lowLoop self2 a m t cutoffIndex i k numLow c.
Proof.
  revert numLow c. induction k as [|k IH]; intros numLow c; simpl; [done|].
  destruct (numLow + (i - cutoffIndex) <=? MaxInputs a); [|done].
  apply bind_ext. intros high c1 _.
  unfold mbind, M_bind.
  match goal with
  | |- context [onSlice 0 cutoffIndex (self1 ?x ?y ?z) c1] =>
      rewrite (onSlice_ext 0 cutoffIndex (self1 x y z) (self2 x y z))
  end.
  - destruct (onSlice 0 cutoffIndex _ c1) as [[[low|e]|p] c2]; [done|apply IH|done].
  - intros v Hv. apply self_agree. rewrite Hv. f_equal. lia.
Qed.

Lemma highLoop_ext a m t k i c :
  highLoop self1 a m t cutoffIndex k i c
  = highLoop self2 a m t cutoffIndex k i c.
Proof.
  revert i c. induction k as [|k IH]; intros i c; simpl; [done|].
  apply bind_ext. intros [idxs|e] c1 _; [done|].
  unfold mbind, M_bind. rewrite lowLoop_ext.
  destruct (lowLoop self2 a m t cutoffIndex i _ 1 c1) as [[[cs|]|p] c2];
    [done|apply IH|done].
Qed.

End recursion.

Lemma MinPrioritySelect_body_ext `{Runtime} `{SortSort} self1 self2 a m t c :
  (∀ a' m' t' v, (length (elems v) < length (elems c))%nat →
     self1 a' m' t' v = self2 a' m' t' v) →
  MinPrioritySelect_body self1 a m t c = MinPrioritySelect_body self2 a m t c.
Proof.
  intros Hself. unfold MinPrioritySelect_body.
  apply bind_ext. intros [] c1 Es. rewrite sort_Sort_eq in Es.
  injection Es as <-.
  apply bind_ext. intros numCoins c2 [= <- <-].
  apply bind_ext. intros cutoff c3 Ef.
  destruct (findCutoff_bounds _ _ _ _ _ _ Ef) as [-> Hr].
  destruct (Z.ltb_spec cutoff 0); [done|].
  apply highLoop_ext. intros a' m' t' v Hv. apply Hself. rewrite Hv.
  simpl in Hr.
  destruct (apply_swaps_within _ _ (sort_swaps_in_range byValueAge_Less (elems c)))
    as [Hlen _].
  rewrite Hlen in Hr. lia.
Qed.

Lemma MinPrioritySelect_rec_enough `{Runtime} `{SortSort} n1 n2 a m t c :
  (length (elems c) <= n1)%nat → (length (elems c) <= n2)%nat →
  MinPrioritySelect_rec n1 a m t c = MinPrioritySelect_rec n2 a m t c.
Proof.
  revert n2 a m t c. induction n1 as [|n1 IH]; intros n2 a m t c H1 H2.
  - destruct n2; simpl; apply MinPrioritySelect_body_ext; intros; lia.
  - destruct n2 as [|n2]; simpl; apply MinPrioritySelect_body_ext.
    + intros; lia.
    + intros a' m' t' v Hv. apply IH; lia.
Qed.

(** The equation of the source: the body, with the function itself as the
    recursive call. *)
Lemma MinPrioritySelect_unfold `{Runtime} `{SortSort} a m t c :
  MinPrioritySelect a m t c
  = MinPrioritySelect_body MinPrioritySelect a m t c.
Proof.
  unfold MinPrioritySelect at 1.
  destruct (length (elems c)) as [|n] eqn:En; simpl;
    apply MinPrioritySelect_body_ext; intros a' m' t' v Hv; [lia|].
  unfold MinPrioritySelect. apply MinPrioritySelect_rec_enough; lia.
Qed.

(** *** The [Swap] calls of [MinPrioritySelect] *)

Lemma log_grows_frame {A} (m : M Coins A) :
  (∀ c, (m c).2 = c) → log_grows m.
Proof. intros Hf c. exists []. by rewrite Hf, app_nil_r. Qed.

Lemma log_grows_bind {A B} (m : M Coins A) (f : A → M Coins B) :
  log_grows m → (∀ x, log_grows (f x)) → log_grows (x ← m; f x).
Proof.
  intros Hm Hf c. unfold mbind, M_bind.
  destruct (Hm c) as [sw1 E1]. destruct (m c) as [[x|p] c1]; simpl in E1.
  - destruct (Hf x c1) as [sw2 E2]. exists (sw1 ++ sw2).
    by rewrite E2, E1, app_assoc.
  - by exists sw1.
Qed.

Lemma log_grows_ret {A} (x : A) : log_grows (mret x : M Coins A).
Proof. by apply log_grows_frame. Qed.

Lemma log_grows_get i : log_grows (Coins.get i).
Proof. apply log_grows_frame, get_frame. Qed.

Lemma log_grows_onSlice {A} lo hi (m : M Coins A) : log_grows (onSlice lo hi m).
Proof.
  intros c. unfold onSlice.
  destruct ((0 <=? lo) && (lo <=? hi) && (hi <=? Z.of_nat (length (elems c)))).
  - destruct (m _) as [r v]. by eexists.
  - exists []. by rewrite app_nil_r.
Qed.

Lemma log_grows_coinsAt idxs : log_grows (coinsAt idxs).
Proof.
  induction idxs as [|i idxs IH]; simpl; [apply log_grows_ret|].
  apply log_grows_bind; [apply log_grows_get|]. intros x.
  apply log_grows_bind; [done|]. intros y. apply log_grows_ret.
Qed.

Lemma log_grows_findCutoff minAvg k i : log_grows (findCutoff minAvg k i).
Proof.
  revert i. induction k as [|k IH]; intros i; simpl; [apply log_grows_ret|].
  apply log_grows_bind; [apply log_grows_get|]. intros x.
  destruct (minAvg <=? ValueAge x); [apply log_grows_ret|apply IH].
Qed.

Section swaps_of_MinPrioritySelect.

Context `{Runtime} `{SortSort}.

Lemma log_grows_SelectMinIndex a target : log_grows (SelectMinIndex a target).
Proof. apply log_grows_frame. intros c. apply SelectMinIndex_frame. Qed.

Lemma log_grows_sort_Sort less : log_grows (sort_Sort less).
Proof. intros c. rewrite sort_Sort_eq. by eexists. Qed.

Lemma log_grows_MinNumberSelect a target : log_grows (MinNumberSelect a target).
Proof.
  apply log_grows_bind; [apply log_grows_sort_Sort|]. intros _.
  apply log_grows_SelectMinIndex.
Qed.

Variable self : Args → Z → Z → M Coins (go_result CoinSet).
Variables (a : Args) (minAvg target cutoffIndex : Z).

Lemma log_grows_lowLoop i k numLow :
  log_grows (lowLoop self a minAvg target cutoffIndex i k numLow).
Proof.
  revert numLow. induction k as [|k IH]; intros numLow; simpl;
    [apply log_grows_ret|].
  destruct (numLow + (i - cutoffIndex) <=? MaxInputs a); [|apply log_grows_ret].
  apply log_grows_bind; [apply log_grows_onSlice|]. intros high.
  apply log_grows_bind; [apply log_grows_onSlice|].
  intros [low|e]; [apply log_grows_ret|apply IH].
Qed.

Lemma log_grows_extendLoop k n ext :
  log_grows (extendLoop a minAvg k n ext).
Proof.
  revert n ext. induction k as [|k IH]; intros n ext; simpl;
    [apply log_grows_ret|].
  destruct (MaxInputs a <=? Num ext); [apply log_grows_ret|].
  apply log_grows_bind; [apply log_grows_get|]. intros x.
  destruct (ValueAge x =? 0); [apply IH|].
  destruct (_ <? minAvg); apply IH.
Qed.

Lemma log_grows_highLoop k i :
  log_grows (highLoop self a minAvg target cutoffIndex k i).
Proof.
  revert i. induction k as [|k IH]; intros i; simpl; [apply log_grows_ret|].
  apply log_grows_bind; [apply log_grows_onSlice|]. intros [idxs|e].
  - apply log_grows_bind; [apply log_grows_onSlice|]. intros high.
    apply log_grows_bind; [apply log_grows_extendLoop|]. intros ext.
    apply log_grows_ret.
  - apply log_grows_bind; [apply log_grows_lowLoop|].
    intros [cs|]; [apply log_grows_ret|apply IH].
Qed.

End swaps_of_MinPrioritySelect.

(** The [Swap] calls of [MinPrioritySelect] begin with those of its sort
    of the whole collection by value-age (line 213). *)
Lemma MinPrioritySelect_sorts_first `{Runtime} `{SortSort} a minAvg target c :
  ∃ sw, swapped (MinPrioritySelect a minAvg target c).2
        = swapped c ++ sort_swaps byValueAge_Less (elems c) ++ sw.
Proof.
  rewrite MinPrioritySelect_unfold. unfold MinPrioritySelect_body.
  rewrite (bind_Done _ _ _ _ _ (sort_Sort_eq _ _)).
  match goal with
  | |- context [(?m ≫= ?f) ?st] =>
      destruct (log_grows_bind m f) with (c := st) as [sw E]
  end.
  - apply log_grows_frame. by intros c'.
  - intros numCoins. apply log_grows_bind; [apply log_grows_findCutoff|].
    intros cutoff. destruct (cutoff <? 0); [apply log_grows_ret|].
    apply log_grows_highLoop.
  - exists sw. rewrite E. simpl. by rewrite app_assoc.
Qed.

(** ** The budget of the greedy selections *)

(** A list returned by [SelectMinIndex], [MinNumberSelect] or
    [MaxValueAgeSelect] is not empty and not longer than [MaxInputs]. *)
Lemma greedy_selection_length `{Runtime} `{SortSort} a target c idxs :
  (SelectMinIndex a target c).1 = Done (Ok idxs)
  ∨ (MinNumberSelect a target c).1 = Done (Ok idxs)
  ∨ (MaxValueAgeSelect a target c).1 = Done (Ok idxs) →
  0 < Z.of_nat (length idxs) <= MaxInputs a.
Proof.
  intros [E|[E|E]]; revert E.
  - apply (selection_length a target c (SelectMinIndex a target)). by exists c.
  - apply (selection_length a target c (MinNumberSelect a target)).
    eexists. apply MinNumberSelect_eq.
  - apply (selection_length a target c (MaxValueAgeSelect a target)).
    eexists. apply MaxValueAgeSelect_eq.
Qed.

(** *** The failing input of the budget

    Lemmas to run [MinPrioritySelect] step by step on an input whose
    sorted order is known, for any implementation of the sort. *)

#[local] Arguments MinNumberSelect : simpl never.
#[local] Arguments MinPrioritySelect : simpl never.
#[local] Arguments onSlice : simpl never.
#[local] Arguments sort_Sort : simpl never.
#[local] Arguments mbind : simpl never.

Lemma bind_assoc {S A B C} (m : M S A) (f : A → M S B) (g : B → M S C) s :
  (y ← (x ← m; f x); g y) s = (x ← m; y ← f x; g y) s.
Proof. unfold mbind, M_bind. by destruct (m s) as [[x|p] s']. Qed.

Lemma onSlice_eval {A} lo hi (m : M Coins A) c r v :
  (0 <=? lo) && (lo <=? hi) && (hi <=? Z.of_nat (length (elems c))) = true →
  m (mkCoins (take (Z.to_nat (hi - lo)) (drop (Z.to_nat lo) (elems c))) [])
  = (r, v) →
  onSlice lo hi m c
  = (r, mkCoins (take (Z.to_nat lo) (elems c) ++ elems v
                   ++ drop (Z.to_nat hi) (elems c))
                (swapped c ++ ((λ p, (lo + p.1, lo + p.2)) <$> swapped v))).
Proof. intros Hg Hm. unfold onSlice. by rewrite Hg, Hm. Qed.

Lemma MinNumberSelect_singleton `{Runtime} `{SortSort} a target x log :
  ∃ log', MinNumberSelect a target (mkCoins [x] log)
          = SelectMinIndex a target (mkCoins [x] log').
Proof.
  rewrite MinNumberSelect_eq, sort_Sort_eq. simpl. rewrite sort_singleton.
  by eexists.
Qed.

(** The recursive call of the failing input: one low-priority coin of
    amount [60] for a residual target of [60]. *)
Lemma MinPrioritySelect_low_coin `{Runtime} `{SortSort} log :
  ∃ log', MinPrioritySelect (mkArgs 1 0) (-80) 60 (mkCoins [mkCoin 60 0] log)
          = (Done (Ok (NewCoinSet [mkCoin 60 0])), mkCoins [mkCoin 60 0] log').
Proof.
  rewrite MinPrioritySelect_unfold. unfold MinPrioritySelect_body.
  rewrite (bind_Done _ _ _ _ _ (sort_Sort_eq _ _)). simpl elems.
  rewrite sort_singleton.
  erewrite (bind_Done Coins.Len) by reflexivity.
  erewrite (bind_Done (findCutoff _ _ _)) by reflexivity.
  simpl.
  destruct (MinNumberSelect_singleton (mkArgs 1 0) 60 (mkCoin 60 0) [])
    as [log1 E1].
  rewrite SelectMinIndex_small in E1 by (simpl; lia).
  erewrite (bind_Done (onSlice _ _ _)).
  2: { apply onSlice_eval; [reflexivity|]. simpl. rewrite E1. reflexivity. }
  simpl.
  erewrite (bind_Done (onSlice _ _ _)) by reflexivity.
  by eexists.
Qed.

(** * The claims *)

(** C1, as amended: for every collection, target and [Args] whose
    [MaxInputs] is a capacity [make] accepts (not negative, not beyond
    the bound of the run-time system), [SelectMinIndex] scans the
    positions below [min(len, MaxInputs)] from the left, accumulating
    amounts, and returns [[0, ..., i]] for the first position [i] whose
    accumulated total satisfies the target predicate; when no scanned
    position does, it returns [ErrCoinsNoSelectionAvailable] and no index
    list. *)
Theorem SelectMinIndex_correct `{Runtime} a target c :
  0 <= MaxInputs a <= maxSliceCap → SelectMinIndex_spec a target c.
Proof.
  intros Hm. unfold SelectMinIndex_spec. rewrite SelectMinIndex_unfold by done.
  split.
  - intros i Hi Hsat Hmin.
    rewrite (SelectMinIndex_loop_found a target c _ 0 i);
      [done|done|lia|lia|lia|done|].
    intros j' _ ?. by apply Hmin.
  - intros Hnone.
    rewrite (SelectMinIndex_loop_none a target c _ 0); [done|done|].
    intros j _ ? ?. apply Hnone. lia.
Qed.

Lemma SelectMinIndex_correct_witness :
  @SelectMinIndex_spec go_amd64 (mkArgs 2 0) 300
    (mkCoins [mkCoin 100 1; mkCoin 100 2] []).
Proof. apply (@SelectMinIndex_correct go_amd64). simpl. lia. Defined.

(** C1 as stated fails for a negative [MaxInputs]: nothing is scanned, and
    the call panics in [make] where the claim has it return the error. *)
Lemma SelectMinIndex_negative_MaxInputs :
  ¬ @SelectMinIndex_spec go_amd64 (mkArgs (-1) 0) 0 (mkCoins [] []).
Proof.
  intros [_ Herr]. simpl in Herr.
  assert (Hp : (@SelectMinIndex go_amd64 (mkArgs (-1) 0) 0 (mkCoins [] [])).1
               = Panic MakesliceCapOutOfRange) by reflexivity.
  rewrite Herr in Hp; [done|]. intros i Hi. lia.
Qed.

(** C2, as amended: on non-negative 64-bit amounts whose sum
    [target + min_change] does not overflow, [satisfiesTargetAmount] is
    true exactly when [total == target] or
    [total - target >= min_change]. *)
Theorem satisfiesTargetAmount_correct target minChange total :
  0 <= target <= Int64.max_int →
  0 <= minChange <= Int64.max_int →
  0 <= total <= Int64.max_int →
  target + minChange <= Int64.max_int →
  predicate_spec target minChange total.
Proof.
  intros Ht Hm Htot Hsum. unfold predicate_spec.
  rewrite satisfiesTargetAmount_no_overflow.
  - lia.
  - unfold Int64.in_range, Int64.min_int, Int64.max_int in *. lia.
Qed.

Lemma satisfiesTargetAmount_correct_witness : predicate_spec 100 50 200.
Proof.
  apply satisfiesTargetAmount_correct; unfold Int64.max_int; lia.
Defined.

(** C2 as stated fails when [target + min_change] overflows: the sum of
    two amounts of [2^62] wraps to [-2^63], which a total of [0] reaches. *)
Lemma satisfiesTargetAmount_overflow :
  0 <= 2 ^ 62 <= Int64.max_int ∧ 0 <= 0 <= Int64.max_int
  ∧ ¬ predicate_spec (2 ^ 62) (2 ^ 62) 0.
Proof.
  split; [unfold Int64.max_int; lia|]. split; [unfold Int64.max_int; lia|].
  unfold predicate_spec. intros [Hl _].
  assert (Hs : satisfiesTargetAmount (2 ^ 62) (2 ^ 62) 0 = true) by reflexivity.
  destruct (Hl Hs) as [Heq | Hge]; lia.
Qed.

(** C3: for every collection and initial index list, after every sequence
    of [pushBack], [popBack] and [popFront] on the subset [newSubset]
    built, each of which ended normally, every index of the subset names
    a coin, [totalValue] is the sum of [Amount()] over the current
    indices and [totalValueAge] the sum of [ValueAge()] over them: the
    64-bit sums a loop over the indices computes, which are the exact
    sums whenever those fit in 64 bits. *)
Theorem subset_totals_invariant coins idxs0 ops s0 s :
  newSubset coins idxs0 = Done s0 →
  run ops s0 = (Done tt, s) →
  set s = coins
  ∧ Forall (λ i, is_Some (at_index coins i)) (idxs s)
  ∧ totalValue s = recompute Amount coins (idxs s)
  ∧ totalValueAge s = recompute ValueAge coins (idxs s)
  ∧ (Int64.in_range (sumOver Amount coins (idxs s)) →
     totalValue s = sumOver Amount coins (idxs s))
  ∧ (Int64.in_range (sumOver ValueAge coins (idxs s)) →
     totalValueAge s = sumOver ValueAge coins (idxs s)).
Proof.
  intros Hnew Hrun.
  destruct (newSubset_invariant _ _ _ Hnew) as (Hset0 & _ & Hinv0).
  destruct (run_invariant _ _ _ Hrun Hinv0) as [(Hv & Ht & Hta) Hset].
  rewrite Hset, Hset0 in *. rewrite !recompute_wrap.
  repeat split; try done.
  - intros Hr. by rewrite Ht, wrap_id.
  - intros Hr. by rewrite Hta, wrap_id.
Qed.

Lemma subset_totals_invariant_witness :
  let coins := [mkCoin 5 7; mkCoin 3 2] in
  let s := mkSubset coins [1; 0] 8 9 in
  totalValue s = recompute Amount coins (idxs s)
  ∧ totalValueAge s = recompute ValueAge coins (idxs s).
Proof.
  intros coins s.
  destruct (subset_totals_invariant coins [0]
              [PushBack 1; PopFront; PushBack 0; PushBack 1; PopBack]
              (mkSubset coins [0] 5 7) s eq_refl eq_refl)
    as (_ & _ & Ht & Hta & _).
  by split.
Defined.

(** C4 at the failing inputs: on a subset whose index list is empty,
    [popBack] and [popFront] panic on the index expression ([s.idxs[-1]],
    [s.idxs[0]]) and leave the subset, its two totals included, as it
    was; they return no error value. *)
Theorem pop_on_empty_panics s :
  idxs s = [] →
  popBack s = (Panic IndexOutOfRange, s)
  ∧ popFront s = (Panic IndexOutOfRange, s).
Proof.
  intros Hempty. unfold popBack, popFront. by rewrite Hempty.
Qed.

Lemma pop_on_empty_panics_witness :
  let s := mkSubset [mkCoin 5 7] [] 0 0 in
  newSubset [mkCoin 5 7] [] = Done s
  ∧ popBack s = (Panic IndexOutOfRange, s)
  ∧ popFront s = (Panic IndexOutOfRange, s).
Proof.
  intros s. split; [reflexivity|].
  apply (pop_on_empty_panics s). reflexivity.
Defined.

(** C5: on coins of amounts [[500, 100, 400]], with target [700],
    [MaxInputs = 3] and [MinChangeAmount = 0], [MinNumberSelect] leaves
    the collection in the order [[500, 400, 100]] and returns the indices
    [[0, 1]] into it, whose coins total [900]; this for every
    implementation of the sort, every value-age of the coins and every
    earlier history of the collection. *)
Theorem MinNumberSelect_scenario_A `{Runtime} `{SortSort} va1 va2 va3 log :
  let c := mkCoins [mkCoin 500 va1; mkCoin 100 va2; mkCoin 400 va3] log in
  let sorted := [mkCoin 500 va1; mkCoin 400 va3; mkCoin 100 va2] in
  (MinNumberSelect (mkArgs 3 0) 700 c).1 = Done (Ok [0; 1])
  ∧ elems (MinNumberSelect (mkArgs 3 0) 700 c).2 = sorted
  ∧ sumOver Amount sorted [0; 1] = 900.
Proof.
  intros c sorted.
  assert (Hout : apply_swaps (sort_swaps (Reverse byAmount_Less) (elems c)) (elems c)
                 = sorted).
  { apply sort_unique.
    - apply Reverse_swo, byAmount_Less_swo.
    - apply perm_skip, perm_swap.
    - unfold sorted, Reverse, byAmount_Less. repeat (constructor; simpl); done.
    - intros x y Hx%list_elem_of_In Hy%list_elem_of_In. simpl in Hx, Hy.
      unfold Reverse, byAmount_Less.
      destruct Hx as [<-|[<-|[<-|[]]]], Hy as [<-|[<-|[<-|[]]]]; done. }
  rewrite MinNumberSelect_eq, sort_Sort_eq, Hout.
  rewrite SelectMinIndex_small by (simpl; lia).
  by repeat split.
Qed.

(** C6: [MinNumberSelect] reorders the caller's collection by [Swap]
    calls on it, into non-increasing order of amount, and runs the greedy
    scan on the collection so reordered; [MaxValueAgeSelect] does the
    same by value-age.  The collection the call leaves is the reordered
    one. *)
Theorem sorting_wrappers_reorder_in_place `{Runtime} `{SortSort} a target c :
  (∃ c', reordered_by_swaps c c'
         ∧ non_increasing Amount (elems c')
         ∧ MinNumberSelect a target c = ((SelectMinIndex a target c').1, c'))
  ∧ (∃ c', reordered_by_swaps c c'
           ∧ non_increasing ValueAge (elems c')
           ∧ MaxValueAgeSelect a target c = ((SelectMinIndex a target c').1, c')).
Proof.
  split.
  - exists (sort_Sort (Reverse byAmount_Less) c).2.
    split; [apply sort_Sort_reorders|]. split.
    + rewrite sort_Sort_eq. apply (sort_descending Amount).
    + rewrite MinNumberSelect_eq.
      rewrite <- (SelectMinIndex_frame a target _) at 3.
      by destruct (SelectMinIndex a target _).
  - exists (sort_Sort (Reverse byValueAge_Less) c).2.
    split; [apply sort_Sort_reorders|]. split.
    + rewrite sort_Sort_eq. apply (sort_descending ValueAge).
    + rewrite MaxValueAgeSelect_eq.
      rewrite <- (SelectMinIndex_frame a target _) at 3.
      by destruct (SelectMinIndex a target _).
Qed.

(** C7 at the failing input: with [MaxInputs = 1], threshold [10] and
    target [110], on a coin of amount [60] and value-age [0] and a coin
    of amount [50] and value-age [100], [MinPrioritySelect] returns a
    selection of two coins, whichever implementation of the sort it
    runs on. *)
Theorem MinPrioritySelect_exceeds_MaxInputs `{Runtime} `{SortSort} log :
  ∃ cs c',
    MinPrioritySelect (mkArgs 1 0) 10 110
      (mkCoins [mkCoin 60 0; mkCoin 50 100] log) = (Done (Ok cs), c')
    ∧ coinList cs = [mkCoin 50 100; mkCoin 60 0]
    ∧ ¬ Num cs <= MaxInputs (mkArgs 1 0).
Proof.
  rewrite MinPrioritySelect_unfold. unfold MinPrioritySelect_body.
  rewrite (bind_Done _ _ _ _ _ (sort_Sort_eq _ _)). simpl elems.
  rewrite (sort_unique byValueAge_Less _ [mkCoin 60 0; mkCoin 50 100]).
  2: apply byValueAge_Less_swo.
  2: done.
  2: { repeat (constructor; simpl); done. }
  2: { intros x y Hx%list_elem_of_In Hy%list_elem_of_In. simpl in Hx, Hy.
       destruct Hx as [<-|[<-|[]]], Hy as [<-|[<-|[]]]; done. }
  erewrite (bind_Done Coins.Len) by reflexivity.
  erewrite (bind_Done (findCutoff _ _ _)) by reflexivity.
  simpl.
  (* the window [coins[1:2]] alone falls short of the target *)
  destruct (MinNumberSelect_singleton (mkArgs 1 0) 110 (mkCoin 50 100) [])
    as [log1 E1].
  rewrite SelectMinIndex_small in E1 by (simpl; lia).
  erewrite (bind_Done (onSlice _ _ _)).
  2: { apply onSlice_eval; [reflexivity|]. simpl. rewrite E1. reflexivity. }
  simpl.
  (* [numLow = 1] passes the test [numLow+(i-cutoffIndex) <= a.MaxInputs] *)
  rewrite bind_assoc.
  erewrite (bind_Done (sliceCoins _ _)) by reflexivity.
  rewrite bind_assoc.
  destruct (MinPrioritySelect_low_coin []) as [log2 E2].
  erewrite (bind_Done (onSlice _ _ _)).
  2: { apply onSlice_eval; [reflexivity|]. exact E2. }
  simpl. eexists _, _. split; [reflexivity|]. split; [reflexivity|].
  unfold Num. simpl. lia.
Qed.

(** C8: for every collection and threshold, when no coin of the
    collection sorted by value-age has a value-age at or above
    [minAvgValueAgePerInput], [MinPrioritySelect] returns
    [ErrCoinsNoSelectionAvailable]. *)
Theorem MinPrioritySelect_no_cutoff `{Runtime} `{SortSort} a minAvg target c :
  Forall (λ x, ValueAge x < minAvg) (elems (sort_Sort byValueAge_Less c).2) →
  (MinPrioritySelect a minAvg target c).1
  = Done (Err ErrCoinsNoSelectionAvailable).
Proof.
  intros Hall. unfold MinPrioritySelect.
  destruct (length (elems c)); simpl;
    by rewrite MinPrioritySelect_body_no_cutoff.
Qed.

Lemma MinPrioritySelect_no_cutoff_witness :
  (@MinPrioritySelect go_amd64 insertion_sort_Sort (mkArgs 2 0) 10 25
     (mkCoins [mkCoin 10 5; mkCoin 20 3] [])).1
  = Done (Err ErrCoinsNoSelectionAvailable).
Proof.
  apply (@MinPrioritySelect_no_cutoff go_amd64 insertion_sort_Sort).
  apply (bool_decide_unpack _). vm_compute. reflexivity.
Defined.

(** C9, as amended: [SelectMinIndex] makes no [Swap] call and leaves the
    collection as it was, whether it returns a selection, returns the
    error or panics; the collection is reordered by the three functions
    that sort it: [MinNumberSelect] and [MaxValueAgeSelect], after which
    the collection is the one their sort left, and [MinPrioritySelect],
    whose [Swap] calls begin with those of its sort of the whole
    collection by value-age. *)
Theorem SelectMinIndex_leaves_collection `{Runtime} `{SortSort} a target c :
  (SelectMinIndex a target c).2 = c
  ∧ (MinNumberSelect a target c).2 = (sort_Sort (Reverse byAmount_Less) c).2
  ∧ (MaxValueAgeSelect a target c).2 = (sort_Sort (Reverse byValueAge_Less) c).2
  ∧ ∀ minAvg, ∃ sw,
      swapped (MinPrioritySelect a minAvg target c).2
      = swapped c ++ sort_swaps byValueAge_Less (elems c) ++ sw.
Proof.
  rewrite MinNumberSelect_eq, MaxValueAgeSelect_eq.
  rewrite !SelectMinIndex_frame. repeat split.
  intros minAvg. apply MinPrioritySelect_sorts_first.
Qed.

(** C9 as stated fails: [MinPrioritySelect], which is neither of the two
    wrappers, reorders the collection.  Under insertion sort, a call
    with threshold [10] on coins of value-ages [5] and [3] fails and
    leaves them in the order [3], [5]. *)
Lemma MinPrioritySelect_reorders :
  ¬ @only_wrappers_reorder go_amd64 insertion_sort_Sort.
Proof.
  intros [_ Hkeep].
  specialize (Hkeep (mkArgs 2 0) 10 25 (mkCoins [mkCoin 10 5; mkCoin 20 3] [])).
  vm_compute in Hkeep. discriminate.
Qed.

(** C10, as amended: a list [SelectMinIndex] returns is never empty; and
    when [MaxInputs] is a capacity [make] accepts (not negative, not
    beyond the bound of the run-time system), an empty collection or
    [MaxInputs = 0] gives [ErrCoinsNoSelectionAvailable], whatever the
    target and the minimum change. *)
Theorem SelectMinIndex_nonempty `{Runtime} a target c :
  (∀ idxs, (SelectMinIndex a target c).1 = Done (Ok idxs) → idxs ≠ [])
  ∧ (0 <= MaxInputs a <= maxSliceCap → elems c = [] ∨ MaxInputs a = 0 →
     (SelectMinIndex a target c).1 = Done (Err ErrCoinsNoSelectionAvailable)).
Proof.
  split.
  - intros idxs E. destruct (SelectMinIndex a target c) as [r c'] eqn:Es.
    simpl in E. subst r. apply SelectMinIndex_length in Es.
    intros ->. simpl in Es. lia.
  - intros Hm Hempty. rewrite SelectMinIndex_unfold by done.
    destruct Hempty as [-> | Hle]; [done|].
    destruct (length (elems c)); simpl; [done|].
    by destruct (Z.ltb_spec 0 (MaxInputs a)); [lia|].
Qed.

Lemma SelectMinIndex_nonempty_witness :
  (@SelectMinIndex go_amd64 (mkArgs 0 0) 0 (mkCoins [mkCoin 0 0] [])).1
  = Done (Err ErrCoinsNoSelectionAvailable).
Proof.
  apply (@SelectMinIndex_nonempty go_amd64 (mkArgs 0 0) 0
           (mkCoins [mkCoin 0 0] [])).
  - simpl. lia.
  - right. reflexivity.
Defined.

(** C10 as stated fails for a negative [MaxInputs]: the call panics in
    [make] and returns nothing. *)
Lemma SelectMinIndex_negative_panics :
  ¬ @nonempty_selection_spec go_amd64 (mkArgs (-1) 0) 0 (mkCoins [] []).
Proof.
  intros [_ Herr].
  assert (Hp : (@SelectMinIndex go_amd64 (mkArgs (-1) 0) 0 (mkCoins [] [])).1
               = Panic MakesliceCapOutOfRange) by reflexivity.
  rewrite Herr in Hp; [done|]. by left.
Qed.

(** * Further properties of the subset accumulator *)

Lemma subset_invariant_in_range s :
  subset_invariant s →
  Int64.in_range (totalValue s) ∧ Int64.in_range (totalValueAge s).
Proof. intros (_ & -> & ->). split; apply wrap_in_range. Qed.

Lemma newSubset_fold_panic coins acc l p :
  foldl (newSubset_step coins) acc l = Panic p →
  acc = Panic p ∨ p = IndexOutOfRange.
Proof.
  revert acc. induction l as [|i l IH]; intros acc; simpl; [by left|].
  intros E. destruct (IH _ E) as [Hs|Hp]; [|by right].
  destruct acc as [s|q]; simpl in Hs; [|by left].
  destruct (at_index coins i); [done|]. right. congruence.
Qed.

(** X1: [newSubset] returns a subset exactly when every index it is given
    names a coin of the collection: the subset then holds the collection,
    the index list as given and the totals summed over it; when some
    index is out of range it panics with an index-out-of-range error. *)
Theorem newSubset_result coins idxs0 :
  (Forall (λ i, is_Some (at_index coins i)) idxs0 →
   newSubset coins idxs0
   = Done (mkSubset coins idxs0 (recompute Amount coins idxs0)
                    (recompute ValueAge coins idxs0)))
  ∧ (¬ Forall (λ i, is_Some (at_index coins i)) idxs0 →
     newSubset coins idxs0 = Panic IndexOutOfRange).
Proof.
  split.
  - intros Hall. destruct (newSubset_Done _ _ Hall) as [s Hs]. rewrite Hs.
    destruct (newSubset_invariant _ _ _ Hs) as (Hset & Hidxs & _ & Ht & Hta).
    rewrite !recompute_wrap. destruct s as [st ix t ta]. simpl in *.
    by subst.
  - intros Hnot. destruct (newSubset coins idxs0) as [s|p] eqn:E.
    + destruct Hnot. unfold newSubset in E.
      by apply newSubset_fold in E as [[Hall _]|[-> _]].
    + unfold newSubset in E. by apply newSubset_fold_panic in E as [? | ->].
Qed.

Lemma newSubset_result_witness :
  newSubset [mkCoin 5 7; mkCoin 3 2] [1; 1; 0]
  = Done (mkSubset [mkCoin 5 7; mkCoin 3 2] [1; 1; 0] 11 11)
  ∧ newSubset [mkCoin 5 7; mkCoin 3 2] [1; 2] = Panic IndexOutOfRange.
Proof.
  split.
  - apply (newSubset_result [mkCoin 5 7; mkCoin 3 2] [1; 1; 0]).
    apply (bool_decide_unpack _). vm_compute. reflexivity.
  - apply (newSubset_result [mkCoin 5 7; mkCoin 3 2] [1; 2]).
    apply (bool_decide_unpack _). vm_compute. reflexivity.
Defined.

(** X2: on a subset whose totals are 64-bit values, a [pushBack] of an
    index of the collection followed by a [popBack] returns the coin at
    that index and leaves the subset exactly as it was, totals
    included. *)
Theorem pushBack_popBack s i c :
  Int64.in_range (totalValue s) → Int64.in_range (totalValueAge s) →
  at_index (set s) i = Some c →
  (_ ← pushBack i; popBack) s = (Done c, s).
Proof.
  intros Ht Hta E. destruct s as [st ix t ta]. simpl in *.
  unfold mbind, M_bind, pushBack. simpl. rewrite E.
  unfold popBack. simpl. rewrite last_snoc, E.
  unfold mbind, M_bind, subTotals, mret, M_ret. simpl.
  rewrite length_app. simpl.
  replace (length ix + 1 - 1)%nat with (length ix) by lia.
  rewrite take_app_length. unfold Int64.sub, Int64.add.
  rewrite !wrap_sub_l.
  replace (t + Amount c - Amount c) with t by lia.
  replace (ta + ValueAge c - ValueAge c) with ta by lia.
  by rewrite !wrap_id.
Qed.

Lemma pushBack_popBack_witness :
  let s := mkSubset [mkCoin 5 7; mkCoin 3 2] [0] 5 7 in
  (_ ← pushBack 1; popBack) s = (Done (mkCoin 3 2), s).
Proof.
  intros s. apply (pushBack_popBack s 1 (mkCoin 3 2)).
  - unfold Int64.in_range, Int64.min_int, Int64.max_int. simpl. lia.
  - unfold Int64.in_range, Int64.min_int, Int64.max_int. simpl. lia.
  - reflexivity.
Defined.

(** X3: whenever a sequence of operations that ended normally has
    emptied the subset [newSubset] built, both cached totals are back to
    zero. *)
Theorem drained_subset_totals_zero coins idxs0 ops s0 s :
  newSubset coins idxs0 = Done s0 →
  run ops s0 = (Done tt, s) →
  idxs s = [] →
  totalValue s = 0 ∧ totalValueAge s = 0.
Proof.
  intros Hnew Hrun Hempty.
  destruct (newSubset_invariant _ _ _ Hnew) as (_ & _ & Hinv0).
  destruct (run_invariant _ _ _ Hrun Hinv0) as [(_ & Ht & Hta) _].
  rewrite Hempty in Ht, Hta. by rewrite Ht, Hta.
Qed.

Lemma drained_subset_totals_zero_witness :
  totalValue (mkSubset [mkCoin 5 7; mkCoin 3 2] [] 0 0) = 0
  ∧ totalValueAge (mkSubset [mkCoin 5 7; mkCoin 3 2] [] 0 0) = 0.
Proof.
  apply (drained_subset_totals_zero [mkCoin 5 7; mkCoin 3 2] [0; 1]
           [PopFront; PushBack 0; PopBack; PopBack]
           (mkSubset [mkCoin 5 7; mkCoin 3 2] [0; 1] 8 9)
           (mkSubset [mkCoin 5 7; mkCoin 3 2] [] 0 0));
    reflexivity.
Defined.

(** X4: a [pushBack] of an index outside the collection panics after the
    index has been appended: the totals are as before, but the subset
    now holds an index that names no coin, and its invariant is lost. *)
Theorem pushBack_out_of_range s i :
  at_index (set s) i = None →
  ∃ s', pushBack i s = (Panic IndexOutOfRange, s')
        ∧ idxs s' = idxs s ++ [i]
        ∧ totalValue s' = totalValue s
        ∧ totalValueAge s' = totalValueAge s
        ∧ ¬ subset_invariant s'.
Proof.
  intros E. unfold pushBack. simpl. rewrite E. eexists. split; [done|].
  simpl. repeat split. intros (Hv & _). simpl in Hv.
  apply Forall_app in Hv as [_ Hv]. apply Forall_cons in Hv as [[x Hx] _].
  congruence.
Qed.

Lemma pushBack_out_of_range_witness :
  ∃ s', pushBack 2 (mkSubset [mkCoin 5 7; mkCoin 3 2] [0] 5 7)
        = (Panic IndexOutOfRange, s')
        ∧ idxs s' = [0; 2].
Proof.
  destruct (pushBack_out_of_range (mkSubset [mkCoin 5 7; mkCoin 3 2] [0] 5 7) 2)
    as (s' & E & Hi & _); [reflexivity|].
  exists s'. by split.
Defined.

Lemma exec_idxs o s s' :
  exec o s = (Done tt, s') → idxs s' = idxs_after (idxs s) [o].
Proof.
  destruct o as [i| |]; simpl.
  - unfold pushBack. simpl. destruct (at_index (set s) i); [|done].
    by intros [= <-].
  - unfold mbind, M_bind, popBack. destruct (last (idxs s)); [|done].
    destruct (at_index (set s) z); [|done]. simpl. by intros [= <-].
  - unfold mbind, M_bind, popFront. destruct (idxs s) as [|j l] eqn:El; [done|].
    simpl. destruct (at_index (set s) j); [|done]. simpl. intros [= <-].
    simpl. by rewrite drop_0.
Qed.

Lemma run_idxs ops s s' :
  run ops s = (Done tt, s') → indexes s' = idxs_after (idxs s) ops.
Proof.
  revert s. induction ops as [|o ops IH]; intros s; simpl.
  { by intros [= <-]. }
  unfold mbind, M_bind. destruct (exec o s) as [[[]|p] s1] eqn:E; [|done].
  intros Hrun. rewrite (IH _ Hrun). apply exec_idxs in E. rewrite E.
  by destruct o.
Qed.

(** X5: when the initial indices and every pushed index name a coin of
    the collection and no pop meets an empty subset, [newSubset] and the
    whole sequence of operations end without a panic, and [indexes]
    then returns the initial list worked as a double-ended queue:
    [pushBack] appends at the back, [popBack] and [popFront] remove at
    the back and at the front. *)
Theorem subset_operations_complete coins idxs0 ops :
  Forall (λ i, is_Some (at_index coins i)) idxs0 →
  ops_ok coins (length idxs0) ops →
  ∃ s0 s, newSubset coins idxs0 = Done s0
          ∧ run ops s0 = (Done tt, s)
          ∧ indexes s = idxs_after idxs0 ops.
Proof.
  intros Hall Hok. destruct (newSubset_Done _ _ Hall) as [s0 Hs0].
  destruct (newSubset_invariant _ _ _ Hs0) as (Hset & Hidxs & Hinv).
  destruct (run_completes ops s0 Hinv) as [s Hs].
  { by rewrite Hset, Hidxs. }
  exists s0, s. repeat split; [done..|].
  by rewrite (run_idxs _ _ _ Hs), Hidxs.
Qed.

Lemma subset_operations_complete_witness :
  ∃ s0 s, newSubset [mkCoin 5 7; mkCoin 3 2] [0] = Done s0
          ∧ run [PushBack 1; PushBack 1; PopFront; PopBack] s0 = (Done tt, s)
          ∧ indexes s = [1].
Proof.
  apply (subset_operations_complete [mkCoin 5 7; mkCoin 3 2] [0]
           [PushBack 1; PushBack 1; PopFront; PopBack]).
  - apply (bool_decide_unpack _). vm_compute. reflexivity.
  - simpl. repeat split; try lia; by eexists.
Defined.

(** * Further properties of the greedy selection *)

Section SelectMinIndex_more.

Variables (a : Args) (target : Z) (c : Coins).

Let sat (i : nat) : bool :=
  satisfiesTargetAmount target (MinChangeAmount a) (accTotal (elems c) (S i)).

Lemma SelectMinIndex_loop_sound k (i : nat) idxs c' :
  (i + k = length (elems c))%nat →
  SelectMinIndex_loop a target k (Z.of_nat i)
    (take i (elems c)) (accTotal (elems c) i) c = (Done (Ok idxs), c') →
  ∃ j : nat, (i <= j)%nat ∧ (j < length (elems c))%nat
    ∧ Z.of_nat j < MaxInputs a ∧ idxs = upto j ∧ sat j = true
    ∧ ∀ j' : nat, (i <= j')%nat → (j' < j)%nat → sat j' = false.
Proof.
  revert i. induction k as [|k IH]; intros i Hk; [done|].
  destruct (Z.ltb_spec (Z.of_nat i) (MaxInputs a)) as [Hlt|Hge].
  - destruct (lookup_lt_is_Some_2 (elems c) i) as [x E]; [lia|].
    rewrite (SelectMinIndex_loop_step _ _ _ _ _ _ E Hlt).
    destruct (satisfiesTargetAmount _ _ _) eqn:Hi.
    + intros [= <- <-]. exists i. repeat split; [lia..|done|done|]. intros; lia.
    + intros Hrec. destruct (IH (S i)) as (j & ? & ? & ? & ? & ? & Hmin);
        [lia|done|].
      exists j. repeat split; [lia|done..|].
      intros j' ? ?. destruct (decide (j' = i)) as [->|]; [done|].
      apply Hmin; lia.
  - simpl. by destruct (Z.ltb_spec (Z.of_nat i) (MaxInputs a)); [lia|].
Qed.

Lemma SelectMinIndex_loop_Done k (i : nat) :
  (i + k = length (elems c))%nat →
  ∃ r, SelectMinIndex_loop a target k (Z.of_nat i)
         (take i (elems c)) (accTotal (elems c) i) c = (Done r, c).
Proof.
  revert i. induction k as [|k IH]; intros i Hk; [by eexists|].
  destruct (Z.ltb_spec (Z.of_nat i) (MaxInputs a)) as [Hlt|Hge].
  - destruct (lookup_lt_is_Some_2 (elems c) i) as [x E]; [lia|].
    rewrite (SelectMinIndex_loop_step _ _ _ _ _ _ E Hlt).
    destruct (satisfiesTargetAmount _ _ _); [by eexists|]. apply IH. lia.
  - simpl. destruct (Z.ltb_spec (Z.of_nat i) (MaxInputs a)); [lia|by eexists].
Qed.

End SelectMinIndex_more.

(** X6: an index list [SelectMinIndex] returns is [[0, ..., i]] for a
    position [i] of the collection below [MaxInputs]; the total
    accumulated over the coins [0 .. i] satisfies the target predicate,
    and no shorter prefix of the collection does. *)
Theorem SelectMinIndex_sound `{Runtime} a target c idxs :
  (SelectMinIndex a target c).1 = Done (Ok idxs) →
  ∃ i : nat,
    idxs = upto i
    ∧ (i < length (elems c))%nat ∧ Z.of_nat i < MaxInputs a
    ∧ satisfiesTargetAmount target (MinChangeAmount a)
        (accTotal (elems c) (S i)) = true
    ∧ ∀ j : nat, (j < i)%nat →
        satisfiesTargetAmount target (MinChangeAmount a)
          (accTotal (elems c) (S j)) = false.
Proof.
  destruct (cap_cases a) as [Hlt|Hge].
  { by rewrite SelectMinIndex_negative. }
  rewrite SelectMinIndex_unfold by done.
  destruct (SelectMinIndex_loop _ _ _ _ _ _ _) as [r c'] eqn:E. simpl.
  intros ->. apply (SelectMinIndex_loop_sound a target c _ 0) in E as
    (j & _ & ? & ? & ? & ? & Hmin); [|done].
  exists j. repeat split; [done..|]. intros j' ?. apply Hmin; lia.
Qed.

Lemma SelectMinIndex_sound_witness :
  ∃ i : nat, [0; 1] = upto i ∧ (i < 3)%nat.
Proof.
  destruct (@SelectMinIndex_sound go_amd64 (mkArgs 3 0) 700
              (mkCoins [mkCoin 500 1; mkCoin 400 3; mkCoin 100 2] []) [0; 1]
              eq_refl) as (i & Hi & Hlen & _).
  exists i. by split.
Defined.

(** X7: [SelectMinIndex] panics exactly when [MaxInputs] is a capacity
    [make] refuses, negative or beyond the bound of the run-time system,
    and then in [make]: its reads of the collection never leave it. *)
Theorem SelectMinIndex_panics_iff `{Runtime} a target c p :
  (SelectMinIndex a target c).1 = Panic p
  ↔ (MaxInputs a < 0 ∨ maxSliceCap < MaxInputs a)
    ∧ p = MakesliceCapOutOfRange.
Proof.
  destruct (cap_cases a) as [Hlt|Hge].
  - rewrite SelectMinIndex_negative by done. simpl. split.
    + by intros [= <-].
    + by intros [_ ->].
  - rewrite SelectMinIndex_unfold by done.
    destruct (SelectMinIndex_loop_Done a target c (length (elems c)) 0)
      as [r Hr]; [done|].
    change (SelectMinIndex_loop a target (length (elems c)) 0 [] 0 c
            = (Done r, c)) in Hr.
    rewrite Hr. simpl. split; [done|]. intros [? _]. lia.
Qed.

(** Whatever the run-time system, a capacity of [2^62] is beyond its
    bound: [SelectMinIndex] panics in [make]. *)
Lemma SelectMinIndex_huge_MaxInputs `{Runtime} minChange target c :
  SelectMinIndex (mkArgs (2 ^ 62) minChange) target c
  = (Panic MakesliceCapOutOfRange, c).
Proof.
  apply SelectMinIndex_negative. right. simpl.
  pose proof maxSliceCap_upper. lia.
Qed.

(** A call that returns, a list or the error, was given a capacity
    [make] accepts. *)
Lemma SelectMinIndex_Done_cap `{Runtime} a target c r :
  (SelectMinIndex a target c).1 = Done r → 0 <= MaxInputs a <= maxSliceCap.
Proof.
  destruct (cap_cases a) as [Hlt|Hge]; [|done].
  by rewrite SelectMinIndex_negative.
Qed.

Lemma accTotal_app l more (n : nat) :
  (n <= length l)%nat → accTotal (l ++ more) n = accTotal l n.
Proof. intros Hn. unfold accTotal. by rewrite take_app_le. Qed.

(** X8: a selection [SelectMinIndex] returns is stable: with a larger
    [MaxInputs] that [make] still accepts, or with more coins appended
    to the collection, or both, it returns the same index list. *)
Theorem SelectMinIndex_stable `{Runtime} a target c idxs m more log :
  (SelectMinIndex a target c).1 = Done (Ok idxs) →
  MaxInputs a <= m → m <= maxSliceCap →
  (SelectMinIndex (mkArgs m (MinChangeAmount a)) target
     (mkCoins (elems c ++ more) log)).1 = Done (Ok idxs).
Proof.
  intros Hsel Hm Hcap.
  pose proof (SelectMinIndex_Done_cap _ _ _ _ Hsel) as Hok.
  apply SelectMinIndex_sound in Hsel as (i & -> & Hlen & Hmax & Hsat & Hmin).
  rewrite SelectMinIndex_unfold by (simpl; lia).
  rewrite (SelectMinIndex_loop_found _ _ _ _ 0 i); simpl; try done.
  - lia.
  - rewrite length_app. lia.
  - lia.
  - by rewrite accTotal_app by lia.
  - intros j' _ ?. rewrite accTotal_app by lia. by apply Hmin.
Qed.

Lemma SelectMinIndex_stable_witness :
  (@SelectMinIndex go_amd64 (mkArgs 5 0) 700
     (mkCoins ([mkCoin 500 1; mkCoin 400 3] ++ [mkCoin 100 2]) [(0, 1)])).1
  = Done (Ok [0; 1]).
Proof.
  apply (@SelectMinIndex_stable go_amd64 (mkArgs 2 0) 700
           (mkCoins [mkCoin 500 1; mkCoin 400 3] []) [0; 1] 5).
  - reflexivity.
  - simpl. lia.
  - simpl. lia.
Defined.

Lemma sumOver_seq f l (n : nat) :
  (n <= length l)%nat →
  sumOver f l (Z.of_nat <$> seq 0 n) = Zsum (f <$> take n l).
Proof.
  induction n as [|n IH]; intros Hn; [done|].
  destruct (lookup_lt_is_Some_2 l n) as [x E]; [lia|].
  rewrite seq_S, fmap_app, sumOver_app, IH by lia. simpl.
  rewrite (sumOver_single f l (Z.of_nat n) x) by (by rewrite at_index_nat).
  rewrite (take_S_r _ _ _ E), fmap_app, Zsum_app. simpl. lia.
Qed.

Lemma Zsum_take_bounds (l : list Z) (n : nat) :
  Forall (λ x, 0 <= x) l → 0 <= Zsum (take n l) <= Zsum l.
Proof.
  intros Hall. revert n. induction Hall as [|x l Hx Hall IH]; intros n.
  { by rewrite take_nil. }
  destruct n as [|n]; simpl.
  - specialize (IH 0%nat). rewrite take_0 in IH. simpl in IH. lia.
  - specialize (IH n). lia.
Qed.

(** X9: when the amounts of the collection, the target and the minimum
    change are non-negative and the sum of the amounts, like
    [target + MinChangeAmount], fits in 64 bits, the coins of
    a selection [SelectMinIndex] returns total exactly the target or at
    least the target plus the minimum change: never less than the
    target. *)
Theorem SelectMinIndex_covers_target `{Runtime} a target c idxs :
  Forall (λ x, 0 <= Amount x) (elems c) →
  Zsum (Amount <$> elems c) <= Int64.max_int →
  0 <= target → 0 <= MinChangeAmount a →
  target + MinChangeAmount a <= Int64.max_int →
  (SelectMinIndex a target c).1 = Done (Ok idxs) →
  sumOver Amount (elems c) idxs = target
  ∨ target + MinChangeAmount a <= sumOver Amount (elems c) idxs.
Proof.
  intros Hpos Hsum Ht Hmc Hno Hsel.
  apply SelectMinIndex_sound in Hsel as (i & -> & Hlen & _ & Hsat & _).
  unfold upto. rewrite sumOver_seq by lia.
  assert (Hb : 0 <= Zsum (take (S i) (Amount <$> elems c))
               <= Zsum (Amount <$> elems c)).
  { apply Zsum_take_bounds. by apply Forall_fmap. }
  rewrite <- fmap_take in Hb.
  unfold accTotal in Hsat. rewrite wrap_id in Hsat.
  - apply satisfiesTargetAmount_no_overflow in Hsat; [done|].
    unfold Int64.in_range, Int64.min_int, Int64.max_int in *. lia.
  - unfold Int64.in_range, Int64.min_int, Int64.max_int in *. lia.
Qed.

Lemma SelectMinIndex_covers_target_witness :
  sumOver Amount [mkCoin 500 1; mkCoin 400 3; mkCoin 100 2] [0; 1] = 700
  ∨ 700 + 50 <= sumOver Amount [mkCoin 500 1; mkCoin 400 3; mkCoin 100 2] [0; 1].
Proof.
  apply (@SelectMinIndex_covers_target go_amd64 (mkArgs 3 50) 700
           (mkCoins [mkCoin 500 1; mkCoin 400 3; mkCoin 100 2] []) [0; 1]).
  - apply (bool_decide_unpack _). vm_compute. reflexivity.
  - vm_compute. discriminate.
  - lia.
  - simpl. lia.
  - vm_compute. discriminate.
  - reflexivity.
Defined.

Lemma SelectMinIndex_Done `{Runtime} a target c :
  0 <= MaxInputs a <= maxSliceCap → ∃ r, SelectMinIndex a target c = (Done r, c).
Proof.
  intros Hm. rewrite SelectMinIndex_unfold by done.
  apply (SelectMinIndex_loop_Done a target c (length (elems c)) 0). done.
Qed.

Lemma SelectMinIndex_loop_err a target c k (i : nat) e c' :
  (i + k = length (elems c))%nat →
  SelectMinIndex_loop a target k (Z.of_nat i)
    (take i (elems c)) (accTotal (elems c) i) c = (Done (Err e), c') →
  ∀ j : nat, (i <= j)%nat → (j < length (elems c))%nat →
    Z.of_nat j < MaxInputs a →
    satisfiesTargetAmount target (MinChangeAmount a)
      (accTotal (elems c) (S j)) = false.
Proof.
  revert i. induction k as [|k IH]; intros i Hk; [intros; lia|].
  destruct (Z.ltb_spec (Z.of_nat i) (MaxInputs a)) as [Hlt|Hge].
  - destruct (lookup_lt_is_Some_2 (elems c) i) as [x E]; [lia|].
    rewrite (SelectMinIndex_loop_step _ _ _ _ _ _ E Hlt).
    destruct (satisfiesTargetAmount _ _ _) eqn:Hi; [done|].
    intros Hrec j ? ? ?. destruct (decide (j = i)) as [->|]; [done|].
    apply (IH (S i)); [lia|done|lia|done..].
  - intros _ j ? ? ?. lia.
Qed.

(** When [SelectMinIndex] returns the error, no position it may scan has
    an accumulated total that satisfies the predicate. *)
Lemma SelectMinIndex_Err_none `{Runtime} a target c e :
  (SelectMinIndex a target c).1 = Done (Err e) →
  ∀ j : nat, (j < length (elems c))%nat → Z.of_nat j < MaxInputs a →
    satisfiesTargetAmount target (MinChangeAmount a)
      (accTotal (elems c) (S j)) = false.
Proof.
  destruct (cap_cases a) as [Hlt|Hge].
  { by rewrite SelectMinIndex_negative. }
  rewrite SelectMinIndex_unfold by done.
  destruct (SelectMinIndex_loop _ _ _ _ _ _ _) as [r c'] eqn:E. simpl.
  intros -> j ? ?.
  apply (SelectMinIndex_loop_err a target c (length (elems c)) 0 e c');
    [done|done|lia|done..].
Qed.

Lemma accTotal_amounts l1 l2 n :
  Amount <$> l1 = Amount <$> l2 → accTotal l1 n = accTotal l2 n.
Proof. intros E. unfold accTotal. by rewrite !fmap_take, E. Qed.

Lemma SelectMinIndex_Ok_amounts `{Runtime} a target c1 c2 idxs :
  Amount <$> elems c1 = Amount <$> elems c2 →
  (SelectMinIndex a target c1).1 = Done (Ok idxs) →
  (SelectMinIndex a target c2).1 = Done (Ok idxs).
Proof.
  intros E Hsel.
  assert (Hlen : length (elems c1) = length (elems c2)).
  { by rewrite <- (length_fmap Amount (elems c1)), E, length_fmap. }
  pose proof (SelectMinIndex_Done_cap _ _ _ _ Hsel) as Hok.
  apply SelectMinIndex_sound in Hsel as (i & -> & Hi & Hmax & Hsat & Hmin).
  rewrite SelectMinIndex_unfold by done.
  rewrite (SelectMinIndex_loop_found _ _ _ _ 0 i); try done; try lia.
  - by rewrite <- (accTotal_amounts _ _ _ E).
  - intros j' _ ?. rewrite <- (accTotal_amounts _ _ _ E). by apply Hmin.
Qed.

(** What [SelectMinIndex] returns depends on the collection through the
    sequence of its amounts only. *)
Lemma SelectMinIndex_amounts `{Runtime} a target c1 c2 :
  Amount <$> elems c1 = Amount <$> elems c2 →
  (SelectMinIndex a target c1).1 = (SelectMinIndex a target c2).1.
Proof.
  intros E. destruct (cap_cases a) as [Hlt|Hge].
  { by rewrite !SelectMinIndex_negative. }
  destruct (SelectMinIndex_Done a target c1 Hge) as [r1 E1].
  destruct (SelectMinIndex_Done a target c2 Hge) as [r2 E2].
  destruct r1 as [idxs1|[]].
  - rewrite (SelectMinIndex_Ok_amounts a target c1 c2 idxs1 E); by rewrite E1.
  - destruct r2 as [idxs2|[]]; [|by rewrite E1, E2].
    rewrite (SelectMinIndex_Ok_amounts a target c2 c1 idxs2); by rewrite ?E2.
Qed.

(** ** Further properties of the sorting wrappers *)

Lemma Zsum_Permutation l1 l2 : l1 ≡ₚ l2 → Zsum l1 = Zsum l2.
Proof. induction 1; simpl in *; lia. Qed.

Lemma StronglySorted_weaken {A} (R1 R2 : relation A) l :
  (∀ x y, R1 x y → R2 x y) → StronglySorted R1 l → StronglySorted R2 l.
Proof.
  intros HR. induction 1 as [|x l' Hs IH Hall]; constructor; [done|].
  eapply Forall_impl; [exact Hall|]. intros y. apply HR.
Qed.

Lemma sorted_desc_Permutation `{SortSort} key l : sorted_desc key l ≡ₚ l.
Proof. apply apply_swaps_within, sort_swaps_in_range. Qed.

Lemma sorted_desc_StronglySorted `{SortSort} key l :
  StronglySorted (λ x y, key y <= key x) (sorted_desc key l).
Proof.
  pose proof (sort_swaps_sorted _ l (Reverse_swo _ (key_less_swo key))) as Hs.
  apply Sorted_StronglySorted in Hs.
  - eapply StronglySorted_weaken; [|exact Hs].
    intros x y. unfold Reverse. simpl. by rewrite Z.ltb_ge.
  - intros x y z. unfold Reverse. rewrite !Z.ltb_ge. lia.
Qed.

(** Two sorts of two orderings of the same coins agree on the sequence
    of keys. *)
Lemma sorted_desc_keys (H1 H2 : SortSort) key l1 l2 :
  l1 ≡ₚ l2 →
  key <$> @sorted_desc H1 key l1 = key <$> @sorted_desc H2 key l2.
Proof.
  intros Hperm.
  apply (StronglySorted_unique_strong (λ x y : Z, y <= x)).
  - intros; lia.
  - eapply StronglySorted_fmap; [|apply sorted_desc_StronglySorted]. done.
  - eapply StronglySorted_fmap; [|apply sorted_desc_StronglySorted]. done.
  - by rewrite !sorted_desc_Permutation, Hperm.
Qed.

Lemma MinNumberSelect_sorted_desc `{Runtime} `{SortSort} a target c :
  MinNumberSelect a target c
  = SelectMinIndex a target
      (mkCoins (sorted_desc Amount (elems c))
               (swapped c ++ sort_swaps (Reverse byAmount_Less) (elems c))).
Proof. by rewrite MinNumberSelect_eq, sort_Sort_eq. Qed.

Lemma MaxValueAgeSelect_sorted_desc `{Runtime} `{SortSort} a target c :
  MaxValueAgeSelect a target c
  = SelectMinIndex a target
      (mkCoins (sorted_desc ValueAge (elems c))
               (swapped c ++ sort_swaps (Reverse byValueAge_Less) (elems c))).
Proof. by rewrite MaxValueAgeSelect_eq, sort_Sort_eq. Qed.

(** X10: what [MinNumberSelect] returns does not depend on the order the
    caller's collection is in, nor on the implementation of the sort and
    its treatment of coins of equal amount: on two orderings of the same
    coins, under two implementations, the results are the same. *)
Theorem MinNumberSelect_order_independent `{Runtime} (H1 H2 : SortSort)
    a target c1 c2 :
  elems c1 ≡ₚ elems c2 →
  (@MinNumberSelect _ H1 a target c1).1 = (@MinNumberSelect _ H2 a target c2).1.
Proof.
  intros Hperm. rewrite !MinNumberSelect_sorted_desc.
  apply SelectMinIndex_amounts. simpl. by apply sorted_desc_keys.
Qed.

Lemma MinNumberSelect_order_independent_witness :
  (@MinNumberSelect go_amd64 insertion_sort_Sort (mkArgs 3 0) 700
     (mkCoins [mkCoin 500 1; mkCoin 100 2; mkCoin 400 3] [])).1
  = (@MinNumberSelect go_amd64 insertion_sort_Sort (mkArgs 3 0) 700
       (mkCoins [mkCoin 100 2; mkCoin 400 3; mkCoin 500 1] [(0, 2)])).1.
Proof.
  apply MinNumberSelect_order_independent. simpl.
  etrans; [apply Permutation_swap|]. apply perm_skip, Permutation_swap.
Defined.

(** Of the sub-collections of a given size of a collection in descending
    order of a key, the leading one has the greatest sum of keys. *)
Lemma sublist_sum_le (key : Coin → Z) l s :
  StronglySorted (λ x y, key y <= key x) l → s `sublist_of` l →
  Zsum (key <$> s) <= Zsum (key <$> take (length s) l).
Proof.
  intros Hs Hsub. induction Hsub as [|x s l Hsub IH|x s l Hsub IH]; [done|..].
  - apply StronglySorted_cons in Hs as [_ Hs]. specialize (IH Hs).
    csimpl. unfold Zsum in *. simpl. lia.
  - apply StronglySorted_cons in Hs as [Hall Hs]. specialize (IH Hs).
    destruct (length s) as [|k] eqn:Hk; [destruct s; [done|done]|].
    pose proof (sublist_length _ _ Hsub) as Hlen.
    destruct (lookup_lt_is_Some_2 l k) as [y E]; [lia|].
    rewrite (take_S_r _ _ _ E), fmap_app, Zsum_app in IH. simpl in IH.
    rewrite Forall_forall in Hall.
    pose proof (Hall y (list_elem_of_lookup_2 _ _ _ E)) as Hy.
    csimpl. unfold Zsum in *. simpl in *. lia.
Qed.

Lemma submseteq_sum_le `{SortSort} (key : Coin → Z) l s :
  s ⊆+ l →
  Zsum (key <$> s) <= Zsum (key <$> take (length s) (sorted_desc key l)).
Proof.
  intros Hsub. rewrite <- (sorted_desc_Permutation key l) in Hsub.
  apply submseteq_sublist_r in Hsub as (s2 & Hperm & Hsub).
  rewrite (Zsum_Permutation _ _ (fmap_Permutation key _ _ Hperm)).
  rewrite (Permutation_length Hperm).
  apply sublist_sum_le; [apply sorted_desc_StronglySorted|done].
Qed.

Lemma accTotal_exact l (n : nat) :
  Forall (λ x, 0 <= Amount x) l → Zsum (Amount <$> l) <= Int64.max_int →
  accTotal l n = Zsum (Amount <$> take n l).
Proof.
  intros Hpos Hsum. unfold accTotal. apply wrap_id.
  assert (Hb : 0 <= Zsum (take n (Amount <$> l)) <= Zsum (Amount <$> l)).
  { apply Zsum_take_bounds. by apply Forall_fmap. }
  rewrite <- fmap_take in Hb.
  unfold Int64.in_range, Int64.min_int, Int64.max_int in *. lia.
Qed.

(** Without overflow, a prefix total that fails the predicate is below
    the target plus the minimum change. *)
Lemma prefix_below_target l target minChange (n : nat) :
  Forall (λ x, 0 <= Amount x) l → Zsum (Amount <$> l) <= Int64.max_int →
  0 <= target → 0 <= minChange → target + minChange <= Int64.max_int →
  satisfiesTargetAmount target minChange (accTotal l n) = false →
  Zsum (Amount <$> take n l) < target + minChange.
Proof.
  intros Hpos Hsum Ht Hmc Hno Hsat. rewrite accTotal_exact in Hsat by done.
  destruct (Z.lt_ge_cases (Zsum (Amount <$> take n l)) (target + minChange))
    as [|Hge]; [done|].
  assert (satisfiesTargetAmount target minChange
            (Zsum (Amount <$> take n l)) = true); [|congruence].
  apply satisfiesTargetAmount_no_overflow; [|by right].
  unfold Int64.in_range, Int64.min_int, Int64.max_int in *. lia.
Qed.

Lemma sorted_desc_amounts `{SortSort} l :
  Forall (λ x, 0 <= Amount x) l → Zsum (Amount <$> l) <= Int64.max_int →
  Forall (λ x, 0 <= Amount x) (sorted_desc Amount l)
  ∧ Zsum (Amount <$> sorted_desc Amount l) <= Int64.max_int.
Proof.
  intros Hpos Hsum. pose proof (sorted_desc_Permutation Amount l) as Hp. split.
  - by rewrite Hp.
  - by rewrite (Zsum_Permutation _ _ (fmap_Permutation Amount _ _ Hp)).
Qed.

(** X11: when the amounts of the collection are non-negative and their
    sum, like [target + MinChangeAmount] with a non-negative target and
    minimum change, fits in 64 bits, no non-empty sub-collection of
    fewer coins than the selection [MinNumberSelect] returns reaches the
    target plus the minimum change. *)
Theorem MinNumberSelect_fewest_inputs `{Runtime} `{SortSort} a target c idxs s :
  Forall (λ x, 0 <= Amount x) (elems c) →
  Zsum (Amount <$> elems c) <= Int64.max_int →
  0 <= target → 0 <= MinChangeAmount a →
  target + MinChangeAmount a <= Int64.max_int →
  (MinNumberSelect a target c).1 = Done (Ok idxs) →
  s ⊆+ elems c → s ≠ [] → (length s < length idxs)%nat →
  Zsum (Amount <$> s) < target + MinChangeAmount a.
Proof.
  intros Hpos Hsum Ht Hmc Hno Hsel Hsub Hne Hlen.
  rewrite MinNumberSelect_sorted_desc in Hsel.
  apply SelectMinIndex_sound in Hsel as (i & -> & _ & _ & _ & Hmin).
  simpl in Hmin. unfold upto in Hlen. rewrite length_fmap, length_seq in Hlen.
  destruct (sorted_desc_amounts _ Hpos Hsum) as [Hpos' Hsum'].
  destruct (length s) as [|k] eqn:Hk; [by destruct s|].
  eapply Z.le_lt_trans.
  - apply (submseteq_sum_le Amount _ _ Hsub).
  - rewrite Hk. apply prefix_below_target; try done. apply Hmin. lia.
Qed.

Lemma MinNumberSelect_fewest_inputs_witness :
  Zsum (Amount <$> [mkCoin 400 3]) < 700 + 0.
Proof.
  apply (@MinNumberSelect_fewest_inputs go_amd64 insertion_sort_Sort (mkArgs 3 0) 700
           (mkCoins [mkCoin 500 1; mkCoin 100 2; mkCoin 400 3] []) [0; 1]
           [mkCoin 400 3]).
  - apply (bool_decide_unpack _). vm_compute. reflexivity.
  - vm_compute. discriminate.
  - lia.
  - simpl. lia.
  - vm_compute. discriminate.
  - vm_compute. reflexivity.
  - apply (bool_decide_unpack _). vm_compute. reflexivity.
  - discriminate.
  - simpl. lia.
Defined.

(** X12: when [MinNumberSelect] returns the error, under the same
    conditions on the amounts, no non-empty sub-collection of at most
    [MaxInputs] coins reaches the target plus the minimum change. *)
Theorem MinNumberSelect_error_unreachable `{Runtime} `{SortSort} a target c e s :
  Forall (λ x, 0 <= Amount x) (elems c) →
  Zsum (Amount <$> elems c) <= Int64.max_int →
  0 <= target → 0 <= MinChangeAmount a →
  target + MinChangeAmount a <= Int64.max_int →
  (MinNumberSelect a target c).1 = Done (Err e) →
  s ⊆+ elems c → s ≠ [] → Z.of_nat (length s) <= MaxInputs a →
  Zsum (Amount <$> s) < target + MinChangeAmount a.
Proof.
  intros Hpos Hsum Ht Hmc Hno Hsel Hsub Hne Hlen.
  rewrite MinNumberSelect_sorted_desc in Hsel.
  pose proof (SelectMinIndex_Err_none _ _ _ _ Hsel) as Hnone. simpl in Hnone.
  destruct (sorted_desc_amounts _ Hpos Hsum) as [Hpos' Hsum'].
  pose proof (submseteq_length _ _ Hsub) as Hle.
  rewrite <- (Permutation_length (sorted_desc_Permutation Amount (elems c)))
    in Hle.
  destruct (length s) as [|k] eqn:Hk; [by destruct s|].
  eapply Z.le_lt_trans.
  - apply (submseteq_sum_le Amount _ _ Hsub).
  - rewrite Hk. apply prefix_below_target; try done. apply Hnone; lia.
Qed.

Lemma MinNumberSelect_error_unreachable_witness :
  Zsum (Amount <$> [mkCoin 100 2; mkCoin 100 1]) < 300 + 0.
Proof.
  apply (@MinNumberSelect_error_unreachable go_amd64 insertion_sort_Sort (mkArgs 2 0) 300
           (mkCoins [mkCoin 100 1; mkCoin 100 2] [])
           ErrCoinsNoSelectionAvailable [mkCoin 100 2; mkCoin 100 1]).
  - apply (bool_decide_unpack _). vm_compute. reflexivity.
  - vm_compute. discriminate.
  - lia.
  - simpl. lia.
  - vm_compute. discriminate.
  - vm_compute. reflexivity.
  - apply (bool_decide_unpack _). vm_compute. reflexivity.
  - discriminate.
  - simpl. lia.
Defined.

(** X13: [MaxValueAgeSelect] selects as much value-age as possible for
    the number of inputs it uses: no sub-collection with as many coins as
    the selection returned has a greater sum of value-ages than the coins
    selected. *)
Theorem MaxValueAgeSelect_greatest_value_age `{Runtime} `{SortSort} a target c idxs s :
  (MaxValueAgeSelect a target c).1 = Done (Ok idxs) →
  s ⊆+ elems c → length s = length idxs →
  Zsum (ValueAge <$> s)
  <= sumOver ValueAge (elems (MaxValueAgeSelect a target c).2) idxs.
Proof.
  intros Hsel Hsub Hlen. rewrite MaxValueAgeSelect_sorted_desc in *.
  rewrite SelectMinIndex_frame. simpl.
  apply SelectMinIndex_sound in Hsel as (i & -> & Hi & _). simpl in Hi.
  unfold upto in *. rewrite length_fmap, length_seq in Hlen.
  rewrite sumOver_seq by lia. rewrite <- Hlen.
  by apply submseteq_sum_le.
Qed.

Lemma MaxValueAgeSelect_greatest_value_age_witness :
  Zsum (ValueAge <$> [mkCoin 500 1; mkCoin 100 2])
  <= sumOver ValueAge
       (elems (@MaxValueAgeSelect go_amd64 insertion_sort_Sort (mkArgs 3 0) 450
                 (mkCoins [mkCoin 500 1; mkCoin 100 2; mkCoin 400 3] [])).2)
       [0; 1].
Proof.
  apply (@MaxValueAgeSelect_greatest_value_age go_amd64 insertion_sort_Sort).
  - vm_compute. reflexivity.
  - apply (bool_decide_unpack _). vm_compute. reflexivity.
  - reflexivity.
Defined.

(** X14: a list that [SelectMinIndex], [MinNumberSelect] or
    [MaxValueAgeSelect] returns is [[0, ..., k-1]] with
    [1 <= k <= MaxInputs] and [k] at most the number of coins: distinct
    positions of the collection as the call leaves it, within the
    budget. *)
Theorem greedy_selection_indices `{Runtime} `{SortSort} a target c idxs :
  (SelectMinIndex a target c).1 = Done (Ok idxs)
  ∨ (MinNumberSelect a target c).1 = Done (Ok idxs)
  ∨ (MaxValueAgeSelect a target c).1 = Done (Ok idxs) →
  ∃ k : nat, idxs = Z.of_nat <$> seq 0 k
    ∧ (0 < k)%nat ∧ Z.of_nat k <= MaxInputs a ∧ (k <= length (elems c))%nat.
Proof.
  intros Hsel.
  assert (Hc : ∃ c', (SelectMinIndex a target c').1 = Done (Ok idxs)
                     ∧ length (elems c') = length (elems c)).
  { destruct Hsel as [E|[E|E]].
    - by exists c.
    - rewrite MinNumberSelect_sorted_desc in E. eexists. split; [exact E|].
      simpl. apply Permutation_length, sorted_desc_Permutation.
    - rewrite MaxValueAgeSelect_sorted_desc in E. eexists. split; [exact E|].
      simpl. apply Permutation_length, sorted_desc_Permutation. }
  destruct Hc as (c' & E & Hlen).
  apply SelectMinIndex_sound in E as (i & -> & Hi & Hmax & _).
  exists (S i). repeat split; lia.
Qed.

Lemma greedy_selection_indices_witness :
  ∃ k : nat, [0; 1] = Z.of_nat <$> seq 0 k ∧ (0 < k)%nat ∧ Z.of_nat k <= 3.
Proof.
  destruct (@greedy_selection_indices go_amd64 insertion_sort_Sort (mkArgs 3 0) 700
              (mkCoins [mkCoin 500 1; mkCoin 100 2; mkCoin 400 3] []) [0; 1])
    as (k & Hk & Hpos & Hmax & _).
  - right. left. vm_compute. reflexivity.
  - exists k. by repeat split.
Defined.

(** X15: the orders [byAmount] and [byValueAge], and their reverses under
    [sort.Reverse], are strict weak orders, which is what [sort.Sort]
    needs of [Less] to leave the collection sorted. *)
Theorem comparators_strict_weak :
  StrictWeakOrder byAmount_Less ∧ StrictWeakOrder byValueAge_Less
  ∧ StrictWeakOrder (Reverse byAmount_Less)
  ∧ StrictWeakOrder (Reverse byValueAge_Less).
Proof.
  repeat split;
    unfold Reverse, byAmount_Less, byValueAge_Less; intros *;
    rewrite ?Z.ltb_lt, ?Z.ltb_ge; lia.
Qed.

Lemma sort_ascending `{SortSort} (key : Coin → Z) l :
  non_decreasing key
    (apply_swaps (sort_swaps (λ ci cj, key ci <? key cj) l) l).
Proof.
  pose proof (sort_swaps_sorted _ l (key_less_swo key)) as Hs.
  apply Sorted_StronglySorted in Hs.
  - intros i j x y Hij Ei Ej.
    pose proof (StronglySorted_lookup _ _ _ _ _ _ Hs Hij Ei Ej) as Hr.
    simpl in Hr. by apply Z.ltb_ge in Hr.
  - intros x y z. rewrite !Z.ltb_ge. lia.
Qed.

(** X16: a call of [MinPrioritySelect] that fails because no coin has a
    value-age at or above the threshold has still reordered the caller's
    collection: it leaves it sorted in non-decreasing order of
    value-age. *)
Theorem MinPrioritySelect_failure_sorts `{Runtime} `{SortSort} a minAvg target c :
  Forall (λ x, ValueAge x < minAvg) (elems c) →
  ∃ c', MinPrioritySelect a minAvg target c
        = (Done (Err ErrCoinsNoSelectionAvailable), c')
        ∧ reordered_by_swaps c c'
        ∧ non_decreasing ValueAge (elems c').
Proof.
  intros Hall. exists (sort_Sort byValueAge_Less c).2.
  assert (Hall' : Forall (λ x, ValueAge x < minAvg)
                    (elems (sort_Sort byValueAge_Less c).2)).
  { rewrite sort_Sort_eq. simpl.
    destruct (apply_swaps_within _ _
                (sort_swaps_in_range byValueAge_Less (elems c))) as [_ Hp].
    by rewrite Hp. }
  split; [|split].
  - unfold MinPrioritySelect.
    destruct (length (elems c)); unfold MinPrioritySelect_rec;
      by rewrite MinPrioritySelect_body_no_cutoff.
  - apply sort_Sort_reorders.
  - rewrite sort_Sort_eq. apply (sort_ascending ValueAge).
Qed.

Lemma MinPrioritySelect_failure_sorts_witness :
  ∃ c', @MinPrioritySelect go_amd64 insertion_sort_Sort (mkArgs 2 0) 10 25
          (mkCoins [mkCoin 10 5; mkCoin 20 3] [])
        = (Done (Err ErrCoinsNoSelectionAvailable), c')
        ∧ elems c' = [mkCoin 20 3; mkCoin 10 5].
Proof.
  destruct (@MinPrioritySelect_failure_sorts go_amd64 insertion_sort_Sort (mkArgs 2 0)
              10 25 (mkCoins [mkCoin 10 5; mkCoin 20 3] []))
    as (c' & E & _).
  - apply (bool_decide_unpack _). vm_compute. reflexivity.
  - exists c'. split; [exact E|].
    assert (E' : @MinPrioritySelect go_amd64 insertion_sort_Sort (mkArgs 2 0) 10 25
                   (mkCoins [mkCoin 10 5; mkCoin 20 3] [])
                 = (Done (Err ErrCoinsNoSelectionAvailable),
                    mkCoins [mkCoin 20 3; mkCoin 10 5] [(1, 0)]))
      by (vm_compute; reflexivity).
    rewrite E' in E. by injection E as <-.
Defined.

(** X17: unlike [MinNumberSelect], [MaxValueAgeSelect] depends on the
    order of coins of equal value-age, which [sort.Sort] does not fix:
    under insertion sort, two orderings of the same two coins give a
    selection and the error. *)
Theorem MaxValueAgeSelect_order_dependent `{Runtime} :
  ∃ a target c1 c2,
    elems c1 ≡ₚ elems c2
    ∧ (@MaxValueAgeSelect _ insertion_sort_Sort a target c1).1 = Done (Ok [0])
    ∧ (@MaxValueAgeSelect _ insertion_sort_Sort a target c2).1
      = Done (Err ErrCoinsNoSelectionAvailable).
Proof.
  exists (mkArgs 1 0), 50,
    (mkCoins [mkCoin 100 5; mkCoin 10 5] []),
    (mkCoins [mkCoin 10 5; mkCoin 100 5] []).
  split; [apply Permutation_swap|].
  rewrite !MaxValueAgeSelect_eq, !sort_Sort_eq.
  rewrite !SelectMinIndex_small by (simpl; lia).
  split; vm_compute; reflexivity.
Qed.

(** X18: when [target + minChange] fits in 64 bits,
    [satisfiesTargetAmount] rejects every total that exceeds the target
    by less than the minimum change, and every total below the target
    when the minimum change is not negative. *)
Theorem satisfiesTargetAmount_rejects target minChange total :
  Int64.in_range (target + minChange) →
  target < total < target + minChange ∨ (total < target ∧ 0 <= minChange) →
  satisfiesTargetAmount target minChange total = false.
Proof.
  intros Hr Hcase.
  destruct (satisfiesTargetAmount target minChange total) eqn:E; [|done].
  apply satisfiesTargetAmount_no_overflow in E; [|done]. lia.
Qed.

Lemma satisfiesTargetAmount_rejects_witness :
  satisfiesTargetAmount 100 50 120 = false.
Proof.
  apply satisfiesTargetAmount_rejects.
  - unfold Int64.in_range, Int64.min_int, Int64.max_int. lia.
  - left. lia.
Defined.
